(** * Heat diffusion on a grid: a shallow embedding of [pde.ts]

    The development follows the source file function by function:
    [initializeHeatGrid], [heatDissipationTimeStep], [drawHeatGrid],
    [canvasXYToGridXY] and the heat injection performed by the interval
    callback of [setupAddHeatOnMouseClick].

    Number model.  Every JavaScript [number] of the source is a binary64
    value.  The embedding idealises them by role:
    - temperatures, [gamma], [beta], [alpha] and the injected heat are real
      numbers ([R]), [Math.exp] is the real exponential; rounding, overflow
      and NaN are outside the model.  Where a binary64 effect changes what
      a statement says it is modelled apart: the underflow of [Math.exp]
      by [Math_exp] and [initializeHeatGridWith], the bytes kept by the
      [Uint8ClampedArray] by [toUint8Clamp] and [displays];
    - row and column counts handed to [initializeHeatGrid] and the grid
      indices produced by [canvasXYToGridXY] are integers ([Z]);
    - loop counters, array lengths, canvas sizes and the scale are naturals;
    - pointer positions are rationals ([Q]); the statements about the floor
      are for the positions of [exactCoordinate], where the rounding of
      [p - 1] in binary64 cannot move the result.

    In-place mutation of [heatGrid] and of [imageData.data] is modelled by
    state passing: a function that mutates its argument returns the new
    value.  A [throw] is the left injection of [result]. *)

From Stdlib Require Import String Bool Arith ZArith QArith Qround Reals Lra Lia List.
From Stdlib Require Lqa.
Import ListNotations.

Close Scope Q_scope.
Close Scope R_scope.
Open Scope nat_scope.

(** ** Exceptions *)

Inductive exn : Type :=
| Thrown (msg : string)   (* [throw "msg"] *)
| TypeError.              (* reading a property of [undefined] *)

Definition result (A : Type) : Type := (exn + A)%type.

(** The two error kinds of the specification, in terms of what the source
    throws. *)
Definition InvalidDimensions (e : exn) : Prop :=
  e = Thrown "Invalid row or column count!".

Definition GridTargetMismatch (e : exn) : Prop :=
  e = Thrown "Grid is larger than canvas" \/
  e = Thrown "Mismatch in canvas and grid sizes".

(** ** Loops and arrays *)

(** [for (let i = lo; i < hi; i++) body] threading the mutated state. *)
Definition for_loop {S : Type} (lo hi : nat) (body : nat -> S -> S) (s : S) : S :=
  fold_left (fun acc i => body i acc) (seq lo (hi - lo)) s.

(** Assignment [l[n] = v] inside the bounds of [l].  The arrays written by
    index in the source are the rows of a rectangular grid, always written
    in range, and a typed pixel array, which ignores a write out of range. *)
Fixpoint update {A : Type} (n : nat) (v : A) (l : list A) : list A :=
  match l, n with
  | [], _ => []
  | _ :: t, O => v :: t
  | h :: t, S n' => h :: update n' v t
  end.

(** ** The grid *)

Definition Grid : Type := list (list R).

(** [heatGrid[i][j]] read; the default is never reached on a rectangular
    grid with [i], [j] in range. *)
Definition get (heatGrid : Grid) (i j : nat) : R :=
  nth j (nth i heatGrid []) 0%R.

(** [heatGrid[i][j] = v] *)
Definition set (heatGrid : Grid) (i j : nat) (v : R) : Grid :=
  update i (update j v (nth i heatGrid [])) heatGrid.

(** A grid of [rows] rows, each of [cols] cells. *)
Definition rectangular (heatGrid : Grid) (rows cols : nat) : Prop :=
  length heatGrid = rows /\ forall i, i < rows -> length (nth i heatGrid []) = cols.

(** ** [initializeHeatGrid] *)

Inductive method : Type := zeros | exp_rbf.   (* "zeros" | "exp" *)

Definition sqDist (midX midY : Z) (i j : nat) : Z :=
  ((Z.of_nat i - midY) ^ 2 + (Z.of_nat j - midX) ^ 2)%Z.

Definition initializeHeatGrid (rows cols : Z) (m : method) (beta alpha : R)
  : result Grid :=
  if ((rows <=? 0) || (rows >? 1080) || (cols <=? 0) || (cols >? 1920))%Z
  then inl (Thrown "Invalid row or column count!")
  else
    let nrows := Z.to_nat rows in
    let ncols := Z.to_nat cols in
    (* Initialize with zeros *)
    let heatGrid :=
      for_loop 0 nrows (fun _ heatGrid =>
        let row := for_loop 0 ncols (fun _ row => row ++ [0%R]) [] in
        heatGrid ++ [row]) [] in
    (* Initialize with radial basis function *)
    let heatGrid :=
      match m with
      | exp_rbf =>
          let midX := (cols / 2)%Z in
          let midY := (rows / 2)%Z in
          for_loop 0 nrows (fun i heatGrid =>
            for_loop 0 ncols (fun j heatGrid =>
              set heatGrid i j (alpha * exp (- beta * IZR (sqDist midX midY i j)))%R)
              heatGrid) heatGrid
      | zeros => heatGrid
      end in
    inr heatGrid.

(** The defaults of the source's signature: [beta=0.0001], [alpha=255]. *)
Definition default_beta : R := 0.0001%R.
Definition default_alpha : R := 255%R.

(** ** [heatDissipationTimeStep] *)

(** The body of the inner loop, at cell [(i,j)]. *)
Definition stepCell (rows cols : nat) (gamma : R) (i j : nat) (heatGrid : Grid)
  : Grid :=
  let a := if (Z.of_nat i - 1 >=? 0)%Z then get heatGrid (i - 1) j else 0%R in
  let b := if i + 1 <? rows then get heatGrid (i + 1) j else 0%R in
  let c := if (Z.of_nat j - 1 >=? 0)%Z then get heatGrid i (j - 1) else 0%R in
  let d := if j + 1 <? cols then get heatGrid i (j + 1) else 0%R in
  let e := get heatGrid i j in
  let temp := (gamma * (a + b + c + d + 4 * e) - e)%R in
  let temp := if Rge_dec temp 0 then temp else 0%R in
  set heatGrid i j temp.

Definition heatDissipationTimeStep (heatGrid : Grid) (gamma : R) : result Grid :=
  match heatGrid with
  | [] => inl TypeError                      (* [heatGrid[0].length] *)
  | row0 :: _ =>
      let rows := length heatGrid in
      let cols := length row0 in
      inr (for_loop 0 rows (fun i heatGrid =>
             for_loop 0 cols (fun j heatGrid =>
               stepCell rows cols gamma i j heatGrid) heatGrid) heatGrid)
  end.

(** ** [drawHeatGrid] *)

(** The canvas, as far as [drawHeatGrid] reads it. *)
Record Canvas : Type := { width : nat; height : nat }.

(** [imageData.data], four channels per pixel, row by row.  The cells hold
    the numbers last written; the byte the [Uint8ClampedArray] keeps of a
    number is given by [toUint8Clamp] below. *)
Definition ImageData : Type := list R.

(** The four channel writes of one pixel [(x,y)]. *)
Definition writePixel (canvasSizeX : nat) (heat : R) (x y : nat) (data : ImageData)
  : ImageData :=
  let redIndex := y * canvasSizeX * 4 + x * 4 in
  let data := update redIndex heat data in
  let data := update (redIndex + 1) (0.2 * heat)%R data in
  let data := update (redIndex + 2) 15%R data in
  update (redIndex + 3) 255%R data.

(** The loop nest under the comment [// Full cells]. *)
Definition drawFullCells (canvasSizeX : nat) (fullCellsX fullCellsY scale : nat)
  (heatGrid : Grid) (data : ImageData) : ImageData :=
  for_loop 0 fullCellsY (fun row data =>
    for_loop 0 fullCellsX (fun col data =>
      for_loop (row * scale) ((row + 1) * scale) (fun y data =>
        for_loop (col * scale) ((col + 1) * scale) (fun x data =>
          writePixel canvasSizeX (get heatGrid row col) x y data) data) data) data) data.

(** The loop nest under the comment [// Remainder]. *)
Definition drawRemainder (canvasSizeX canvasSizeY : nat)
  (fullCellsX fullCellsY gridSizeX gridSizeY scale : nat)
  (heatGrid : Grid) (data : ImageData) : ImageData :=
  for_loop (fullCellsY * scale) gridSizeY (fun row data =>
    for_loop (fullCellsX * scale) gridSizeX (fun col data =>
      for_loop (row * scale) canvasSizeY (fun y data =>
        for_loop (col * scale) canvasSizeX (fun x data =>
          writePixel canvasSizeX (get heatGrid row col) x y data) data) data) data) data.

Definition totalCells (canvasSize scale : nat) : nat :=
  let fullCells := canvasSize / scale in
  let remainder := canvasSize mod scale in
  if remainder =? 0 then fullCells else fullCells + 1.

(** [ctx.putImageData], which hands the filled buffer to the display, and
    the [alert] and [console.log] calls that precede a [throw] are not part
    of the model: the result is the buffer or the exception. *)
Definition drawHeatGrid (canvas : Canvas) (imageData : ImageData)
  (heatGrid : Grid) (scale : nat) : result ImageData :=
  match heatGrid with
  | [] => inl TypeError                      (* [heatGrid[0].length] *)
  | row0 :: _ =>
      let canvasSizeX := width canvas in
      let canvasSizeY := height canvas in
      let gridSizeX := length row0 in
      let gridSizeY := length heatGrid in
      if (canvasSizeX <? gridSizeX) || (canvasSizeY <? gridSizeY)
      then inl (Thrown "Grid is larger than canvas")
      else
        let fullCellsX := canvasSizeX / scale in
        let fullCellsY := canvasSizeY / scale in
        let totalCellsX := totalCells canvasSizeX scale in
        let totalCellsY := totalCells canvasSizeY scale in
        if negb (totalCellsX =? gridSizeX) || negb (totalCellsY =? gridSizeY)
        then inl (Thrown "Mismatch in canvas and grid sizes")
        else
          let data := drawFullCells canvasSizeX fullCellsX fullCellsY scale
                        heatGrid imageData in
          let data := drawRemainder canvasSizeX canvasSizeY fullCellsX fullCellsY
                        gridSizeX gridSizeY scale heatGrid data in
          inr data
  end.

(** ** [canvasXYToGridXY] *)

Definition canvasXYToGridXY (canvasX canvasY : Q) (scale : nat) : Z * Z :=
  let gridX := Qfloor ((canvasX - 1) / inject_Z (Z.of_nat scale))%Q in
  let gridY := Qfloor ((canvasY - 1) / inject_Z (Z.of_nat scale))%Q in
  (gridX, gridY).

(** ** Heat injection: the interval callback of [setupAddHeatOnMouseClick] *)

(** [heatGrid[y][x] += heat] *)
Definition addAt (heatGrid : Grid) (y x : Z) (heat : R) : Grid :=
  set heatGrid (Z.to_nat y) (Z.to_nat x)
      (get heatGrid (Z.to_nat y) (Z.to_nat x) + heat)%R.

(** The guarded block that adds [heat] at [(gridX, gridY)] and at its
    neighbours; [rows] and [cols] are the variables of the enclosing
    closure. *)
Definition addHeat (heatGrid : Grid) (rows cols : Z) (gridX gridY : Z) (heat : R)
  : Grid :=
  if ((gridX >=? 0) && (gridX <? cols) && (gridY >=? 0) && (gridY <? rows))%Z
  then
    (* Mouse position *)
    let heatGrid := addAt heatGrid gridY gridX heat in
    (* Neighboring pixels *)
    let heatGrid :=
      if (gridX >? 0)%Z then addAt heatGrid gridY (gridX - 1) heat else heatGrid in
    let heatGrid :=
      if (gridX <? cols - 1)%Z then addAt heatGrid gridY (gridX + 1) heat else heatGrid in
    let heatGrid :=
      if (gridY >? 0)%Z then addAt heatGrid (gridY - 1) gridX heat else heatGrid in
    let heatGrid :=
      if (gridY <? rows - 1)%Z then addAt heatGrid (gridY + 1) gridX heat else heatGrid in
    heatGrid
  else heatGrid.

Definition addedHeatOnMouseClick : R := 8%R.

(** One firing of the interval callback while the button is held, at the
    last pointer position [(x,y)]. *)
Definition intervalTick (holding : bool) (x y : Q) (scale : nat)
  (heatMultiplier : R) (rows cols : Z) (heatGrid : Grid) : Grid :=
  if negb holding then heatGrid
  else
    let '(gridX, gridY) := canvasXYToGridXY x y scale in
    let heat := (heatMultiplier * addedHeatOnMouseClick)%R in
    addHeat heatGrid rows cols gridX gridY heat.

(** ** [getMousePosition] *)

(** What [getBoundingClientRect] and the mouse event contribute. *)
Record Rect : Type := { rect_left : Q; rect_top : Q }.
Record MouseEvent : Type := { clientX : Q; clientY : Q }.

Definition getMousePosition (rect : Rect) (event : MouseEvent) : Q * Q :=
  let x := (clientX event - rect_left rect)%Q in
  let y := (clientY event - rect_top rect)%Q in
  (x, y).

(** ** The pointer handlers of [setupAddHeatOnMouseClick] *)

(** The variables the handlers share, the intervals that are live and the
    grid.  [setInterval] hands out a fresh identifier each time,
    [nextTimer]; [intervalID] is [None] while the variable is still
    [undefined]. *)
Record Pointer : Type := {
  holding : bool;
  mouseEvent : option MouseEvent;
  intervalID : option nat;
  timers : list nat;
  nextTimer : nat;
  grid : Grid
}.

(** The values the handlers read and never write. *)
Record Settings : Type := {
  canvasRect : Rect;
  scaleSetting : nat;
  heatMultiplier : R;
  rowsSetting : Z;
  colsSetting : Z
}.

Definition initialPointer (heatGrid : Grid) : Pointer :=
  {| holding := false; mouseEvent := None; intervalID := None;
     timers := []; nextTimer := 1; grid := heatGrid |}.

(** [clearInterval(intervalID)] *)
Definition clearInterval (id : option nat) (live : list nat) : list nat :=
  match id with
  | Some n => filter (fun m => negb (m =? n)) live
  | None => live
  end.

(** [interval()]: [intervalID = setInterval(callback, delay)]. *)
Definition interval (st : Pointer) : Pointer :=
  {| holding := holding st; mouseEvent := mouseEvent st;
     intervalID := Some (nextTimer st);
     timers := nextTimer st :: timers st;
     nextTimer := S (nextTimer st);
     grid := grid st |}.

Definition setHolding (b : bool) (st : Pointer) : Pointer :=
  {| holding := b; mouseEvent := mouseEvent st; intervalID := intervalID st;
     timers := timers st; nextTimer := nextTimer st; grid := grid st |}.

(** One run of the interval callback.  With the button held and no
    [mousemove] seen yet, [getMousePosition] reads a property of
    [undefined]: the callback ends in a [TypeError] and changes nothing. *)
Definition intervalCallback (env : Settings) (st : Pointer) : Pointer :=
  if negb (holding st)
  then {| holding := holding st; mouseEvent := mouseEvent st;
          intervalID := intervalID st;
          timers := clearInterval (intervalID st) (timers st);
          nextTimer := nextTimer st; grid := grid st |}
  else
    match mouseEvent st with
    | None => st
    | Some event =>
        let '(x, y) := getMousePosition (canvasRect env) event in
        {| holding := holding st; mouseEvent := mouseEvent st;
           intervalID := intervalID st; timers := timers st;
           nextTimer := nextTimer st;
           grid := intervalTick true x y (scaleSetting env) (heatMultiplier env)
                     (rowsSetting env) (colsSetting env) (grid st) |}
    end.

(** What the event loop can run next: one of the four listeners, or the
    callback of an interval. *)
Inductive PointerEvent : Type :=
| MouseDown
| MouseUp
| MouseLeave
| MouseMove (event : MouseEvent)
| Fire (id : nat).

(** The callback of an interval that was cleared does not run. *)
Definition handle (env : Settings) (st : Pointer) (ev : PointerEvent) : Pointer :=
  match ev with
  | MouseDown => interval (setHolding true st)
  | MouseUp => interval (setHolding false st)
  | MouseLeave => interval (setHolding false st)
  | MouseMove event =>
      {| holding := holding st; mouseEvent := Some event;
         intervalID := intervalID st; timers := timers st;
         nextTimer := nextTimer st; grid := grid st |}
  | Fire id =>
      if existsb (Nat.eqb id) (timers st) then intervalCallback env st else st
  end.

Definition run (env : Settings) (st : Pointer) (trace : list PointerEvent) : Pointer :=
  fold_left (handle env) trace st.

(** ** The main program: start, reset and one animation frame *)

(** [(beta/100000) * scale**2] *)
Definition betaScaled (beta : Z) (scale : nat) : R :=
  (IZR beta / 100000 * IZR (Z.of_nat scale) ^ 2)%R.

(** [ctx.createImageData(width, height)]: transparent black. *)
Definition createImageData (w h : nat) : ImageData := repeat 0%R (w * h * 4).

(** [rows], [cols] and [heatGrid] as the start of the program and the
    reset handler compute them. *)
Definition newHeatGrid (canvas : Canvas) (scale : nat) (beta : Z) : result Grid :=
  let rows := height canvas / scale in
  let cols := width canvas / scale in
  initializeHeatGrid (Z.of_nat rows) (Z.of_nat cols) exp_rbf
    (betaScaled beta scale) default_alpha.

(** The body of [animate], without the re-arming of the timeout. *)
Definition animate (canvas : Canvas) (imageData : ImageData) (heatGrid : Grid)
  (scale : nat) (gamma : R) : result (ImageData * Grid) :=
  match drawHeatGrid canvas imageData heatGrid scale with
  | inl e => inl e
  | inr data =>
      match heatDissipationTimeStep heatGrid gamma with
      | inl e => inl e
      | inr heatGrid' => inr (data, heatGrid')
      end
  end.

(** Start or reset, up to the end of the first frame. *)
Definition firstFrame (canvas : Canvas) (scale : nat) (beta : Z) (gamma : R)
  : result (ImageData * Grid) :=
  match newHeatGrid canvas scale beta with
  | inl e => inl e
  | inr heatGrid =>
      animate canvas (createImageData (width canvas) (height canvas))
        heatGrid scale gamma
  end.

(** [scaleInputToScale[n]]; [None] where the object has no such key. *)
Definition scaleInputToScale (n : Z) : option nat :=
  match n with
  | 1%Z => Some 10 | 2%Z => Some 8 | 3%Z => Some 5
  | 4%Z => Some 4 | 5%Z => Some 2 | 6%Z => Some 1
  | _ => None
  end.

(** ** Vocabulary of the specification *)

(** The value of cell [(r,c)], with [0] substituted outside the grid. *)
Definition cellOrZero (g : Grid) (rows cols : nat) (r c : Z) : R :=
  if ((0 <=? r) && (r <? Z.of_nat rows) && (0 <=? c) && (c <? Z.of_nat cols))%Z
  then get g (Z.to_nat r) (Z.to_nat c) else 0%R.

(** The raw stencil expression
    [gamma*(up + down + left + right + 4*center) - center]. *)
Definition rawStencil (gamma up down left right center : R) : R :=
  (gamma * (up + down + left + right + 4 * center) - center)%R.

(** [max(0, gamma*(up + down + left + right + 4*center) - center)] *)
Definition stencil (gamma up down left right center : R) : R :=
  Rmax 0 (rawStencil gamma up down left right center).

(** The specification's reading of one step: every neighbour of [(i,j)] is
    taken from the grid [g] as it was before the step. *)
Definition snapshotCell (g : Grid) (rows cols : nat) (gamma : R) (i j : nat) : R :=
  let zi := Z.of_nat i in
  let zj := Z.of_nat j in
  stencil gamma
    (cellOrZero g rows cols (zi - 1) zj) (cellOrZero g rows cols (zi + 1) zj)
    (cellOrZero g rows cols zi (zj - 1)) (cellOrZero g rows cols zi (zj + 1))
    (get g i j).

(** What the row-major pass computes: the upper and the left neighbour come
    from the grid [g'] after the step, the lower and the right neighbour and
    the centre from the grid [g] before it. *)
Definition inPlaceCell (g g' : Grid) (rows cols : nat) (gamma : R) (i j : nat) : R :=
  let zi := Z.of_nat i in
  let zj := Z.of_nat j in
  stencil gamma
    (cellOrZero g' rows cols (zi - 1) zj) (cellOrZero g rows cols (zi + 1) zj)
    (cellOrZero g' rows cols zi (zj - 1)) (cellOrZero g rows cols zi (zj + 1))
    (get g i j).

(** Cell [(r,c)] comes before cell [(i,j)] in the row-major scan. *)
Definition before (i j r c : nat) : Prop := r < i \/ (r = i /\ c < j).

(** State of the pass over [g0] when it is about to visit cell [(i,j)] with
    the grid in state [h]: the cells already visited hold their final
    value, the others their old one. *)
Definition scanState (g0 : Grid) (rows cols : nat) (gamma : R) (i j : nat)
  (h : Grid) : Prop :=
  rectangular h rows cols /\
  (forall r c, ~ before i j r c -> get h r c = get g0 r c) /\
  (forall r c, r < rows -> c < cols -> before i j r c ->
     get h r c = inPlaceCell g0 h rows cols gamma r c).

(** A grid with every cell equal to [t]. *)
Definition uniform (rows cols : nat) (t : R) : Grid := repeat (repeat t cols) rows.

(** Channel [k] of pixel [(x,y)] in a buffer of row width [canvasSizeX]. *)
Definition channel (data : ImageData) (canvasSizeX x y k : nat) : R :=
  nth (y * canvasSizeX * 4 + x * 4 + k) data 0%R.

(** Pixel [(x,y)] lies in the block of grid cell [(row,col)], one of the
    [fullCellsX] by [fullCellsY] blocks of [scale] by [scale] pixels. *)
Definition inCell (fullCellsX fullCellsY scale row col x y : nat) : Prop :=
  row < fullCellsY /\ col < fullCellsX /\
  row * scale <= y < (row + 1) * scale /\ col * scale <= x < (col + 1) * scale.

(** Pixel [(x,y)] holds the colour of temperature [t]. *)
Definition painted (data : ImageData) (canvasSizeX x y : nat) (t : R) : Prop :=
  channel data canvasSizeX x y 0 = t /\
  channel data canvasSizeX x y 1 = (0.2 * t)%R /\
  channel data canvasSizeX x y 2 = 15%R /\
  channel data canvasSizeX x y 3 = 255%R.

(** Cell [(i,j)] is cell [(r,c)] or one of its four cardinal neighbours. *)
Definition near (r c i j : nat) : bool :=
  ((i =? r) && (j =? c)) || ((i =? r) && (j + 1 =? c)) ||
  ((i =? r) && (j =? c + 1)) || ((i + 1 =? r) && (j =? c)) ||
  ((i =? r + 1) && (j =? c)).

(** [g'] is [g] with exactly [n] cells raised by [amount] and every other
    cell as it was. *)
Definition raisesExactly (n : nat) (g g' : Grid) (rows cols : nat) (amount : R)
  : Prop :=
  exists cells : list (nat * nat),
    NoDup cells /\ length cells = n /\
    (forall i j, In (i, j) cells -> i < rows /\ j < cols) /\
    (forall i j, In (i, j) cells -> get g' i j = (get g i j + amount)%R) /\
    (forall i j, i < rows -> j < cols -> ~ In (i, j) cells -> get g' i j = get g i j).

(** [n] diffusion steps in a row. *)
Fixpoint steps (n : nat) (heatGrid : Grid) (gamma : R) : result Grid :=
  match n with
  | O => inr heatGrid
  | S n' =>
      match heatDissipationTimeStep heatGrid gamma with
      | inl e => inl e
      | inr heatGrid' => steps n' heatGrid' gamma
      end
  end.

(** [n] injections at the same position. *)
Fixpoint addHeatTimes (n : nat) (heatGrid : Grid) (rows cols gridX gridY : Z)
  (heat : R) : Grid :=
  match n with
  | O => heatGrid
  | S n' => addHeatTimes n' (addHeat heatGrid rows cols gridX gridY heat)
              rows cols gridX gridY heat
  end.

(** Every cell of the grid lies in [[lo, hi]]. *)
Definition cellsWithin (g : Grid) (rows cols : nat) (lo hi : R) : Prop :=
  forall i j, i < rows -> j < cols -> (lo <= get g i j <= hi)%R.

(** The number of [mousedown] events in a trace. *)
Definition mouseDowns (trace : list PointerEvent) : nat :=
  length (filter (fun ev => match ev with MouseDown => true | _ => false end) trace).

(** The identifiers handed out so far are below [nextTimer]. *)
Definition timersFresh (st : Pointer) : Prop :=
  forall id, In id (timers st) -> id < nextTimer st.

(** [n] animation frames in a row on the same canvas and buffer. *)
Fixpoint frames (n : nat) (canvas : Canvas) (imageData : ImageData)
  (heatGrid : Grid) (scale : nat) (gamma : R) : result (ImageData * Grid) :=
  match n with
  | O => inr (imageData, heatGrid)
  | S n' =>
      match animate canvas imageData heatGrid scale gamma with
      | inl e => inl e
      | inr (data, heatGrid') => frames n' canvas data heatGrid' scale gamma
      end
  end.

(** [g'] is [g] with the cell [(r,c)] and its cardinal neighbours in the
    grid raised by [amount], [n] cells in all, and every other cell as it
    was. *)
Definition raisesNear (n : nat) (g g' : Grid) (rows cols r c : nat) (amount : R)
  : Prop :=
  exists cells : list (nat * nat),
    NoDup cells /\ length cells = n /\
    (forall i j, In (i, j) cells <-> i < rows /\ j < cols /\ near r c i j = true) /\
    (forall i j, In (i, j) cells -> get g' i j = (get g i j + amount)%R) /\
    (forall i j, i < rows -> j < cols -> ~ In (i, j) cells -> get g' i j = get g i j).

(** A pointer coordinate for which the binary64 evaluation of
    [Math.floor((p-1)/scale)], at a scale up to [2^53], is the exact one:
    no rounding in [p - 1] or in the division changes the result.  These
    are the whole numbers and the non-negative numbers, up to [2^52] in
    magnitude; a negative fraction such as [-(7 + 2^-50)], for which
    [p - 1] rounds to [-8], is not among them. *)
Definition exactCoordinate (p : Q) : Prop :=
  ((0 <= p)%Q \/ exists n : Z, (p == inject_Z n)%Q) /\
  (- inject_Z (2 ^ 52) <= p)%Q /\ (p <= inject_Z (2 ^ 52))%Q.

(** What an element of the [Uint8ClampedArray] reads back as after the
    number [number] was stored in it: the number clamped to [0, 255] and
    rounded to the nearest integer, a tie going to the even one. *)
Definition toUint8Clamp (number : R) : R :=
  let clamped := Rmin (Rmax number 0) 255 in
  let f := Int_part clamped in
  if Rlt_dec clamped (IZR f + 1 / 2) then IZR f
  else if Rlt_dec (IZR f + 1 / 2) clamped then (IZR f + 1)%R
  else if Z.even f then IZR f else (IZR f + 1)%R.

(** Pixel [(x,y)] of the typed array shows the temperature [t]: red reads
    back as the byte of [t], blue as [15], alpha as [255].  (Green, the
    byte of the product [0.2*t], is left out: next to a tie the rounding
    of the binary64 product decides the byte.) *)
Definition displays (data : ImageData) (canvasSizeX x y : nat) (t : R) : Prop :=
  toUint8Clamp (channel data canvasSizeX x y 0) = toUint8Clamp t /\
  toUint8Clamp (channel data canvasSizeX x y 2) = 15%R /\
  toUint8Clamp (channel data canvasSizeX x y 3) = 255%R.

(** [Math.exp] with the underflow of binary64: below [-1075 * ln 2] (about
    [-745.13]) the exponential is less than [2^-1075], half the least
    positive binary64 number, and the result is [0]; above, the real
    exponential, without its rounding. *)
Definition Math_exp (x : R) : R :=
  if Rlt_dec x (- 1075 * ln 2) then 0%R else exp x.

(** [initializeHeatGrid] with the exponential given: [initializeHeatGrid]
    itself is the instance at the real exponential. *)
Definition initializeHeatGridWith (mathExp : R -> R) (rows cols : Z) (m : method)
  (beta alpha : R) : result Grid :=
  if ((rows <=? 0) || (rows >? 1080) || (cols <=? 0) || (cols >? 1920))%Z
  then inl (Thrown "Invalid row or column count!")
  else
    let nrows := Z.to_nat rows in
    let ncols := Z.to_nat cols in
    let heatGrid :=
      for_loop 0 nrows (fun _ heatGrid =>
        let row := for_loop 0 ncols (fun _ row => row ++ [0%R]) [] in
        heatGrid ++ [row]) [] in
    let heatGrid :=
      match m with
      | exp_rbf =>
          let midX := (cols / 2)%Z in
          let midY := (rows / 2)%Z in
          for_loop 0 nrows (fun i heatGrid =>
            for_loop 0 ncols (fun j heatGrid =>
              set heatGrid i j
                (alpha * mathExp (- beta * IZR (sqDist midX midY i j)))%R)
              heatGrid) heatGrid
      | zeros => heatGrid
      end in
    inr heatGrid.

(** * Properties *)

(** ** Loops *)

Lemma for_loop_empty {S : Type} (lo hi : nat) (body : nat -> S -> S) (s : S) :
  hi <= lo -> for_loop lo hi body s = s.
Proof.
  intros H. unfold for_loop. replace (hi - lo) with 0 by lia. reflexivity.
Qed.

Lemma for_loop_last {S : Type} (lo hi : nat) (body : nat -> S -> S) (s : S) :
  lo <= hi -> for_loop lo (Datatypes.S hi) body s = body hi (for_loop lo hi body s).
Proof.
  intros H. unfold for_loop.
  replace (Datatypes.S hi - lo) with (Datatypes.S (hi - lo)) by lia.
  rewrite seq_S, fold_left_app. simpl.
  replace (lo + (hi - lo)) with hi by lia. reflexivity.
Qed.

(** The invariant rule of a counted loop. *)
Lemma for_loop_inv {S : Type} (P : nat -> S -> Prop) (lo hi : nat)
  (body : nat -> S -> S) (s : S) :
  lo <= hi ->
  P lo s ->
  (forall i t, lo <= i < hi -> P i t -> P (Datatypes.S i) (body i t)) ->
  P hi (for_loop lo hi body s).
Proof.
  intros Hle H0 Hstep. induction hi as [|hi IH].
  - assert (lo = 0) by lia. subst. rewrite for_loop_empty by lia. exact H0.
  - destruct (Nat.eq_dec lo (Datatypes.S hi)) as [->|Hne].
    + rewrite for_loop_empty by lia. exact H0.
    + rewrite for_loop_last by lia. apply Hstep; [lia|].
      apply IH; [lia|]. intros i t Hi. apply Hstep. lia.
Qed.

(** ** Arrays *)

Lemma length_update {A : Type} (n : nat) (v : A) (l : list A) :
  length (update n v l) = length l.
Proof.
  revert n. induction l as [|h t IH]; intros [|n]; simpl; auto.
Qed.

Lemma nth_update_eq {A : Type} (n : nat) (v d : A) (l : list A) :
  n < length l -> nth n (update n v l) d = v.
Proof.
  revert n. induction l as [|h t IH]; intros [|n] H; simpl in *; try lia; auto.
  apply IH. lia.
Qed.

Lemma nth_update_neq {A : Type} (n m : nat) (v d : A) (l : list A) :
  n <> m -> nth m (update n v l) d = nth m l d.
Proof.
  revert n m. induction l as [|h t IH]; intros [|n] [|m] H; simpl; auto; try lia.
Qed.

Lemma update_out {A : Type} (n : nat) (v : A) (l : list A) :
  length l <= n -> update n v l = l.
Proof.
  revert n. induction l as [|h t IH]; intros [|n] H; simpl in *; auto; try lia.
  f_equal. apply IH. lia.
Qed.

(** ** Grid reads and writes *)

Lemma length_set (g : Grid) (i j : nat) (v : R) :
  length (set g i j v) = length g.
Proof. unfold set. apply length_update. Qed.

Lemma row_length_set (g : Grid) (i j k : nat) (v : R) :
  length (nth k (set g i j v) []) = length (nth k g []).
Proof.
  unfold set. destruct (Nat.eq_dec i k) as [->|Hne].
  - destruct (Nat.lt_ge_cases k (length g)) as [Hlt|Hge].
    + rewrite nth_update_eq by assumption. apply length_update.
    + rewrite update_out by assumption. reflexivity.
  - rewrite nth_update_neq by assumption. reflexivity.
Qed.

Lemma rectangular_set (g : Grid) (rows cols i j : nat) (v : R) :
  rectangular g rows cols -> rectangular (set g i j v) rows cols.
Proof.
  intros [Hr Hc]. split.
  - rewrite length_set. exact Hr.
  - intros k Hk. rewrite row_length_set. auto.
Qed.

Lemma get_set_eq (g : Grid) (rows cols i j : nat) (v : R) :
  rectangular g rows cols -> i < rows -> j < cols ->
  get (set g i j v) i j = v.
Proof.
  intros [Hr Hc] Hi Hj. unfold get, set.
  rewrite nth_update_eq by lia.
  apply nth_update_eq. rewrite Hc by assumption. exact Hj.
Qed.

Lemma get_set_neq (g : Grid) (i j r c : nat) (v : R) :
  (i, j) <> (r, c) -> get (set g i j v) r c = get g r c.
Proof.
  intros Hne. unfold get, set.
  destruct (Nat.eq_dec i r) as [->|Hir].
  - assert (j <> c) by congruence.
    destruct (Nat.lt_ge_cases r (length g)) as [Hlt|Hge].
    + rewrite nth_update_eq by assumption. apply nth_update_neq. assumption.
    + rewrite update_out by assumption. reflexivity.
  - rewrite nth_update_neq by assumption. reflexivity.
Qed.

(** ** The diffusion step *)

Lemma clamp_is_Rmax (temp : R) :
  (if Rge_dec temp 0 then temp else 0%R) = Rmax 0 temp.
Proof.
  unfold Rmax. destruct (Rge_dec temp 0), (Rle_dec 0 temp); lra.
Qed.

Lemma stencil_nonneg (gamma up down left right center : R) :
  (0 <= stencil gamma up down left right center)%R.
Proof. unfold stencil. apply Rmax_l. Qed.

Lemma cellOrZero_in (g : Grid) (rows cols r c : nat) :
  r < rows -> c < cols ->
  cellOrZero g rows cols (Z.of_nat r) (Z.of_nat c) = get g r c.
Proof.
  intros Hr Hc. unfold cellOrZero.
  replace ((0 <=? Z.of_nat r)%Z) with true by (symmetry; apply Z.leb_le; lia).
  replace ((Z.of_nat r <? Z.of_nat rows)%Z) with true by (symmetry; apply Z.ltb_lt; lia).
  replace ((0 <=? Z.of_nat c)%Z) with true by (symmetry; apply Z.leb_le; lia).
  replace ((Z.of_nat c <? Z.of_nat cols)%Z) with true by (symmetry; apply Z.ltb_lt; lia).
  simpl. rewrite !Nat2Z.id. reflexivity.
Qed.

Lemma cellOrZero_out (g : Grid) (rows cols : nat) (r c : Z) :
  (r < 0 \/ Z.of_nat rows <= r \/ c < 0 \/ Z.of_nat cols <= c)%Z ->
  cellOrZero g rows cols r c = 0%R.
Proof.
  intros H. unfold cellOrZero.
  destruct (Z.leb_spec 0 r), (Z.ltb_spec r (Z.of_nat rows)),
    (Z.leb_spec 0 c), (Z.ltb_spec c (Z.of_nat cols)); simpl; try reflexivity; lia.
Qed.

Lemma cellOrZero_set_neq (g : Grid) (rows cols i j : nat) (v : R) (r c : Z) :
  (Z.of_nat i, Z.of_nat j) <> (r, c) ->
  cellOrZero (set g i j v) rows cols r c = cellOrZero g rows cols r c.
Proof.
  intros Hne. unfold cellOrZero.
  destruct (Z.leb_spec 0 r), (Z.ltb_spec r (Z.of_nat rows)),
    (Z.leb_spec 0 c), (Z.ltb_spec c (Z.of_nat cols)); simpl; try reflexivity.
  apply get_set_neq. intros Heq. apply Hne.
  injection Heq as -> ->. rewrite !Z2Nat.id by assumption. reflexivity.
Qed.

(** The loop body writes the stencil of the five reads at [(i,j)]. *)
Lemma stepCell_stencil (rows cols : nat) (gamma : R) (i j : nat) (h : Grid) :
  i < rows -> j < cols ->
  stepCell rows cols gamma i j h =
  set h i j
    (stencil gamma
       (cellOrZero h rows cols (Z.of_nat i - 1) (Z.of_nat j))
       (cellOrZero h rows cols (Z.of_nat i + 1) (Z.of_nat j))
       (cellOrZero h rows cols (Z.of_nat i) (Z.of_nat j - 1))
       (cellOrZero h rows cols (Z.of_nat i) (Z.of_nat j + 1))
       (get h i j)).
Proof.
  intros Hi Hj. unfold stepCell, stencil, rawStencil. rewrite clamp_is_Rmax.
  f_equal. f_equal. f_equal. f_equal. f_equal. f_equal; [f_equal; [f_equal|]|].
  - destruct (Z.geb_spec (Z.of_nat i - 1) 0) as [Hge|Hlt].
    + replace (Z.of_nat i - 1)%Z with (Z.of_nat (i - 1)) by lia.
      rewrite cellOrZero_in by lia. reflexivity.
    + rewrite cellOrZero_out by lia. reflexivity.
  - destruct (Nat.ltb_spec (i + 1) rows) as [Hlt|Hge].
    + replace (Z.of_nat i + 1)%Z with (Z.of_nat (i + 1)) by lia.
      rewrite cellOrZero_in by lia. reflexivity.
    + rewrite cellOrZero_out by lia. reflexivity.
  - destruct (Z.geb_spec (Z.of_nat j - 1) 0) as [Hge|Hlt].
    + replace (Z.of_nat j - 1)%Z with (Z.of_nat (j - 1)) by lia.
      rewrite cellOrZero_in by lia. reflexivity.
    + rewrite cellOrZero_out by lia. reflexivity.
  - destruct (Nat.ltb_spec (j + 1) cols) as [Hlt|Hge].
    + replace (Z.of_nat j + 1)%Z with (Z.of_nat (j + 1)) by lia.
      rewrite cellOrZero_in by lia. reflexivity.
    + rewrite cellOrZero_out by lia. reflexivity.
Qed.

Section Scan.
Variables (g0 : Grid) (rows cols : nat) (gamma : R).
Hypothesis Hrect : rectangular g0 rows cols.

Lemma scanned_start : scanState g0 rows cols gamma 0 0 g0.
Proof.
  split; [exact Hrect|]. split.
  - reflexivity.
  - intros r c _ _ [H|[_ H]]; lia.
Qed.

Lemma scanned_next_row (i : nat) (h : Grid) :
  scanState g0 rows cols gamma i cols h -> scanState g0 rows cols gamma (S i) 0 h.
Proof.
  intros (Hr & Hold & Hnew). split; [exact Hr|]. split.
  - intros r c Hnb. apply Hold. unfold before in *. lia.
  - intros r c Hlr Hlc Hb. apply Hnew; try assumption. unfold before in *. lia.
Qed.

Lemma scanned_cell (i j : nat) (h : Grid) :
  i < rows -> j < cols ->
  scanState g0 rows cols gamma i j h -> scanState g0 rows cols gamma i (S j) (stepCell rows cols gamma i j h).
Proof.
  intros Hi Hj (Hr & Hold & Hnew).
  rewrite stepCell_stencil by assumption.
  set (v := stencil _ _ _ _ _ _).
  assert (Hup : forall r c, before i (S j) r c ->
            cellOrZero (set h i j v) rows cols (Z.of_nat r - 1) (Z.of_nat c)
            = cellOrZero h rows cols (Z.of_nat r - 1) (Z.of_nat c)).
  { intros r c Hb. apply cellOrZero_set_neq. unfold before in Hb.
    intros Heq. injection Heq as H1 H2. lia. }
  assert (Hleft : forall r c, before i (S j) r c ->
            cellOrZero (set h i j v) rows cols (Z.of_nat r) (Z.of_nat c - 1)
            = cellOrZero h rows cols (Z.of_nat r) (Z.of_nat c - 1)).
  { intros r c Hb. apply cellOrZero_set_neq. unfold before in Hb.
    intros Heq. injection Heq as H1 H2. lia. }
  split; [apply rectangular_set; exact Hr|]. split.
  - intros r c Hnb. rewrite get_set_neq.
    + apply Hold. unfold before in *. lia.
    + intros Heq. injection Heq as <- <-. apply Hnb. unfold before. lia.
  - intros r c Hlr Hlc Hb. unfold inPlaceCell.
    rewrite Hup, Hleft by assumption.
    destruct (Nat.eq_dec r i) as [->|Hri];
      [destruct (Nat.eq_dec c j) as [->|Hcj]|].
    + rewrite (get_set_eq h rows cols i j v Hr Hi Hj). unfold v.
      f_equal.
      * destruct (Nat.ltb_spec (i + 1) rows) as [Hlt|Hge].
        -- replace (Z.of_nat i + 1)%Z with (Z.of_nat (i + 1)) by lia.
           rewrite !cellOrZero_in by lia. apply Hold. unfold before. lia.
        -- rewrite !cellOrZero_out by lia. reflexivity.
      * destruct (Nat.ltb_spec (j + 1) cols) as [Hlt|Hge].
        -- replace (Z.of_nat j + 1)%Z with (Z.of_nat (j + 1)) by lia.
           rewrite !cellOrZero_in by lia. apply Hold. unfold before. lia.
        -- rewrite !cellOrZero_out by lia. reflexivity.
      * apply Hold. unfold before. lia.
    + rewrite get_set_neq by congruence.
      apply Hnew; try assumption. unfold before in *. lia.
    + rewrite get_set_neq by congruence.
      apply Hnew; try assumption. unfold before in *. lia.
Qed.

Lemma scanned_row (i : nat) (h : Grid) :
  i < rows ->
  scanState g0 rows cols gamma i 0 h ->
  scanState g0 rows cols gamma (S i) 0
    (for_loop 0 cols (fun j h' => stepCell rows cols gamma i j h') h).
Proof.
  intros Hi H0. apply scanned_next_row.
  apply (for_loop_inv (fun j h' => scanState g0 rows cols gamma i j h')); [lia|exact H0|].
  intros j t Hj Ht. apply scanned_cell; [assumption|lia|assumption].
Qed.

Lemma scanned_all :
  scanState g0 rows cols gamma rows 0
    (for_loop 0 rows (fun i h =>
       for_loop 0 cols (fun j h' => stepCell rows cols gamma i j h') h) g0).
Proof.
  apply (for_loop_inv (fun i h => scanState g0 rows cols gamma i 0 h)); [lia|exact scanned_start|].
  intros i t Hi Ht. apply scanned_row; [lia|assumption].
Qed.
End Scan.

(** On a grid with at least one row the step returns, keeps the shape and
    leaves in every cell the stencil of the in-place pass. *)
Lemma heatDissipationTimeStep_inPlace (g : Grid) (rows cols : nat) (gamma : R) :
  rectangular g rows cols -> 0 < rows ->
  exists g', heatDissipationTimeStep g gamma = inr g' /\
    rectangular g' rows cols /\
    forall i j, i < rows -> j < cols ->
      get g' i j = inPlaceCell g g' rows cols gamma i j.
Proof.
  intros Hrect Hpos. pose proof Hrect as [Hlen Hcols].
  destruct g as [|row0 rest]; [simpl in Hlen; lia|].
  unfold heatDissipationTimeStep.
  assert (Hc0 : length row0 = cols) by (apply (Hcols 0 Hpos)).
  rewrite Hlen, Hc0.
  destruct (scanned_all (row0 :: rest) rows cols gamma Hrect) as (Hr & _ & Hnew).
  eexists. split; [reflexivity|]. split; [exact Hr|].
  intros i j Hi Hj. apply Hnew; try assumption. unfold before. lia.
Qed.

(** A write of the value already in place changes nothing. *)
Lemma update_same {A : Type} (n : nat) (d : A) (l : list A) :
  update n (nth n l d) l = l.
Proof.
  revert n. induction l as [|h t IH]; intros [|n]; simpl; auto.
  f_equal. apply IH.
Qed.

Lemma set_same (g : Grid) (i j : nat) :
  set g i j (get g i j) = g.
Proof.
  unfold set, get. rewrite update_same. apply update_same.
Qed.

Lemma for_loop_fixed {S : Type} (lo hi : nat) (body : nat -> S -> S) (s : S) :
  (forall i, lo <= i < hi -> body i s = s) ->
  for_loop lo hi body s = s.
Proof.
  intros H. destruct (Nat.le_gt_cases lo hi) as [Hle|Hgt].
  - apply (for_loop_inv (fun _ t => t = s)); [assumption|reflexivity|].
    intros i t Hi ->. apply H. assumption.
  - apply for_loop_empty. lia.
Qed.

Lemma get_uniform_zero (rows cols i j : nat) :
  get (uniform rows cols 0%R) i j = 0%R.
Proof.
  unfold get, uniform.
  destruct (Nat.lt_ge_cases i rows) as [Hlt|Hge].
  - rewrite nth_repeat_lt by assumption.
    destruct (Nat.lt_ge_cases j cols) as [Hj|Hj].
    + apply nth_repeat_lt. assumption.
    + apply nth_overflow. rewrite repeat_length. assumption.
  - rewrite (nth_overflow (repeat (repeat 0%R cols) rows) [])
      by (rewrite repeat_length; assumption).
    destruct j; reflexivity.
Qed.

Lemma rectangular_uniform (rows cols : nat) (t : R) :
  rectangular (uniform rows cols t) rows cols.
Proof.
  unfold uniform. split.
  - apply repeat_length.
  - intros i Hi. rewrite nth_repeat_lt by assumption. apply repeat_length.
Qed.

Lemma stepCell_zero (rows cols : nat) (gamma : R) (i j : nat) :
  stepCell rows cols gamma i j (uniform rows cols 0%R) = uniform rows cols 0%R.
Proof.
  unfold stepCell. rewrite !get_uniform_zero.
  rewrite clamp_is_Rmax.
  replace (Rmax 0 _) with (get (uniform rows cols 0%R) i j).
  - apply set_same.
  - rewrite get_uniform_zero.
    destruct (Z.of_nat i - 1 >=? 0)%Z, (i + 1 <? rows),
      (Z.of_nat j - 1 >=? 0)%Z, (j + 1 <? cols);
      unfold Rmax; destruct (Rle_dec _ _); lra.
Qed.

Lemma rectangular_1x2 (x y : R) : rectangular [[x; y]] 1 2.
Proof. split; [reflexivity|]. intros [|i] Hi; [reflexivity|lia]. Qed.

Lemma rectangular_1x1 (x : R) : rectangular [[x]] 1 1.
Proof. split; [reflexivity|]. intros [|i] Hi; [reflexivity|lia]. Qed.

Lemma Rmax_0_nonneg (x : R) : (0 <= x)%R -> Rmax 0 x = x.
Proof. intros H. apply Rmax_right. exact H. Qed.

Lemma Rmax_0_neg (x : R) : (x <= 0)%R -> Rmax 0 x = 0%R.
Proof. intros H. apply Rmax_left. exact H. Qed.

(** The pass over [[1, 1]] with [gamma = 1]: the second cell reads the first
    one after its update. *)
Lemma step_1x2_trace :
  heatDissipationTimeStep [[1%R; 1%R]] 1%R = inr [[4%R; 7%R]].
Proof.
  unfold heatDissipationTimeStep, for_loop. simpl.
  assert (H0 : stepCell 1 2 1 0 0 [[1%R; 1%R]] = [[4%R; 1%R]]).
  { unfold stepCell. simpl. rewrite clamp_is_Rmax. cbn [get set nth update].
    rewrite Rmax_0_nonneg by lra.
    replace (1 * (0 + 0 + 0 + 1 + 4 * 1) - 1)%R with 4%R by lra. reflexivity. }
  rewrite H0.
  unfold stepCell. simpl. rewrite clamp_is_Rmax. cbn [get set nth update].
  rewrite Rmax_0_nonneg by lra.
  replace (1 * (0 + 0 + 4 + 0 + 4 * 1) - 1)%R with 7%R by lra. reflexivity.
Qed.

Lemma snapshotCell_1x2 : snapshotCell [[1%R; 1%R]] 1 2 1%R 0 1 = 4%R.
Proof.
  unfold snapshotCell, stencil, rawStencil, cellOrZero. simpl. cbn [get nth].
  rewrite Rmax_0_nonneg by lra. lra.
Qed.

(** C1, as stated, fails: on the grid [[1, 1]] with [gamma = 1] the pass
    leaves [7] in cell [(0,1)], because its left neighbour already holds
    the updated [4]; from the values before the step the cell would be
    [max(0, 1*(0 + 0 + 1 + 0 + 4*1) - 1) = 4]. *)
Lemma step_snapshot_counterexample :
  heatDissipationTimeStep [[1%R; 1%R]] 1%R = inr [[4%R; 7%R]] /\
  get [[4%R; 7%R]] 0 1 = 7%R /\
  snapshotCell [[1%R; 1%R]] 1 2 1%R 0 1 = 4%R /\
  get [[4%R; 7%R]] 0 1 <> snapshotCell [[1%R; 1%R]] 1 2 1%R 0 1.
Proof.
  split; [exact step_1x2_trace|]. split; [reflexivity|].
  split; [exact snapshotCell_1x2|].
  rewrite snapshotCell_1x2. cbn [get nth]. lra.
Qed.

(** C1 (amended): for every grid with at least one row and every [gamma],
    one diffusion step returns and sets each cell [(i,j)] to
    [max(0, gamma*(up + down + left + right + 4*center) - center)], where
    [down], [right] and [center] are the values before the step and [up]
    and [left] are the values those two cells received earlier in the same
    row-major pass; a neighbour outside the grid counts as [0]. *)
Theorem step_cell_in_place (g : Grid) (rows cols : nat) (gamma : R) :
  rectangular g rows cols -> 0 < rows ->
  exists g', heatDissipationTimeStep g gamma = inr g' /\
    forall i j, i < rows -> j < cols ->
      get g' i j =
      stencil gamma
        (cellOrZero g' rows cols (Z.of_nat i - 1) (Z.of_nat j))
        (cellOrZero g rows cols (Z.of_nat i + 1) (Z.of_nat j))
        (cellOrZero g' rows cols (Z.of_nat i) (Z.of_nat j - 1))
        (cellOrZero g rows cols (Z.of_nat i) (Z.of_nat j + 1))
        (get g i j).
Proof.
  intros Hrect Hpos.
  destruct (heatDissipationTimeStep_inPlace g rows cols gamma Hrect Hpos)
    as (g' & Heq & _ & Hcells).
  exists g'. split; [exact Heq|]. exact Hcells.
Qed.

Lemma step_cell_in_place_witness :
  rectangular [[1%R; 1%R]] 1 2 /\ 0 < 1 /\
  exists g', heatDissipationTimeStep [[1%R; 1%R]] 1%R = inr g' /\
    forall i j, i < 1 -> j < 2 ->
      get g' i j =
      stencil 1%R
        (cellOrZero g' 1 2 (Z.of_nat i - 1) (Z.of_nat j))
        (cellOrZero [[1%R; 1%R]] 1 2 (Z.of_nat i + 1) (Z.of_nat j))
        (cellOrZero g' 1 2 (Z.of_nat i) (Z.of_nat j - 1))
        (cellOrZero [[1%R; 1%R]] 1 2 (Z.of_nat i) (Z.of_nat j + 1))
        (get [[1%R; 1%R]] i j).
Proof.
  split; [apply rectangular_1x2|]. split; [lia|].
  apply (step_cell_in_place [[1%R; 1%R]] 1 2 1%R).
  - apply rectangular_1x2.
  - lia.
Defined.

(** The clamp at work: with [gamma = 0] the raw value of the single cell
    is [0*(4*1) - 1 = -1], and the step stores [0]. *)
Lemma step_clamps_negative :
  heatDissipationTimeStep [[1%R]] 0%R = inr [[0%R]].
Proof.
  unfold heatDissipationTimeStep, for_loop. simpl.
  unfold stepCell. simpl. rewrite clamp_is_Rmax. cbn [get set nth update].
  rewrite Rmax_0_neg by lra. reflexivity.
Qed.

(** C4: for every grid with at least one row and every [gamma], one
    diffusion step returns a grid in which every cell is [>= 0]; and where
    the raw stencil expression of a cell, on the values the pass reads for
    it, is negative, the cell is set to zero. *)
Theorem step_cells_nonneg (g : Grid) (rows cols : nat) (gamma : R) :
  rectangular g rows cols -> 0 < rows ->
  exists g', heatDissipationTimeStep g gamma = inr g' /\
    forall i j, i < rows -> j < cols ->
      (0 <= get g' i j)%R /\
      ((rawStencil gamma
          (cellOrZero g' rows cols (Z.of_nat i - 1) (Z.of_nat j))
          (cellOrZero g rows cols (Z.of_nat i + 1) (Z.of_nat j))
          (cellOrZero g' rows cols (Z.of_nat i) (Z.of_nat j - 1))
          (cellOrZero g rows cols (Z.of_nat i) (Z.of_nat j + 1))
          (get g i j) < 0)%R ->
       get g' i j = 0%R).
Proof.
  intros Hrect Hpos.
  destruct (heatDissipationTimeStep_inPlace g rows cols gamma Hrect Hpos)
    as (g' & Heq & _ & Hcells).
  exists g'. split; [exact Heq|].
  intros i j Hi Hj. rewrite (Hcells i j Hi Hj).
  unfold inPlaceCell. split; [apply stencil_nonneg|].
  intros Hneg. unfold stencil. apply Rmax_0_neg. lra.
Qed.

Lemma step_cells_nonneg_witness :
  exists g', heatDissipationTimeStep [[1%R]] 0%R = inr g' /\
    forall i j, i < 1 -> j < 1 ->
      (0 <= get g' i j)%R /\
      ((rawStencil 0%R
          (cellOrZero g' 1 1 (Z.of_nat i - 1) (Z.of_nat j))
          (cellOrZero [[1%R]] 1 1 (Z.of_nat i + 1) (Z.of_nat j))
          (cellOrZero g' 1 1 (Z.of_nat i) (Z.of_nat j - 1))
          (cellOrZero [[1%R]] 1 1 (Z.of_nat i) (Z.of_nat j + 1))
          (get [[1%R]] i j) < 0)%R ->
       get g' i j = 0%R).
Proof.
  apply (step_cells_nonneg [[1%R]] 1 1 0%R).
  - apply rectangular_1x1.
  - lia.
Defined.

(** C8: for every [gamma], one diffusion step applied to an all-zero grid
    (of at least one row) returns the same all-zero grid: every cell stays
    equal to [0]. *)
Theorem step_zero_grid_fixed (rows cols : nat) (gamma : R) :
  0 < rows ->
  heatDissipationTimeStep (uniform rows cols 0%R) gamma
  = inr (uniform rows cols 0%R).
Proof.
  intros Hpos. unfold heatDissipationTimeStep.
  pose proof (rectangular_uniform rows cols 0%R) as [Hlen Hcols].
  remember (uniform rows cols 0%R) as z eqn:Hz.
  destruct z as [|row0 rest]; [simpl in Hlen; lia|].
  assert (Hc0 : length row0 = cols) by (apply (Hcols 0 Hpos)).
  rewrite Hlen, Hc0. f_equal. rewrite Hz.
  apply for_loop_fixed. intros i _.
  apply for_loop_fixed. intros j _.
  apply stepCell_zero.
Qed.

Lemma step_zero_grid_fixed_witness :
  0 < 2 /\
  heatDissipationTimeStep (uniform 2 3 0%R) (1 / 4)%R = inr (uniform 2 3 0%R).
Proof.
  split; [lia|]. apply (step_zero_grid_fixed 2 3 (1 / 4)%R). lia.
Defined.

(** ** Initialization *)

Lemma push_zeros (n : nat) :
  for_loop 0 n (fun _ row => row ++ [0%R]) [] = repeat 0%R n.
Proof.
  apply (for_loop_inv (fun k row => row = repeat 0%R k)); [lia|reflexivity|].
  intros k t _ ->. simpl. symmetry. apply repeat_cons.
Qed.

Lemma push_rows (rows : nat) (row : list R) :
  for_loop 0 rows (fun _ heatGrid => heatGrid ++ [row]) [] = repeat row rows.
Proof.
  apply (for_loop_inv (fun k g => g = repeat row k)); [lia|reflexivity|].
  intros k t _ ->. simpl. symmetry. apply repeat_cons.
Qed.

(** A pair of loops that assigns [f i j] to every cell [(i,j)]. *)
Lemma fill_loops (f : nat -> nat -> R) (g : Grid) (rows cols : nat) :
  rectangular g rows cols ->
  let g' := for_loop 0 rows (fun i h =>
              for_loop 0 cols (fun j h' => set h' i j (f i j)) h) g in
  rectangular g' rows cols /\
  forall i j, i < rows -> j < cols -> get g' i j = f i j.
Proof.
  intros Hrect g'.
  pose (P := fun (i j : nat) (h : Grid) =>
    rectangular h rows cols /\
    forall r c, r < rows -> c < cols -> before i j r c -> get h r c = f r c).
  assert (Hfinal : P rows 0 g').
  { apply (for_loop_inv (fun i h => P i 0 h)); [lia| |].
    - split; [exact Hrect|]. intros r c _ _ [H|[_ H]]; lia.
    - intros i t Hi Ht.
      assert (Hrow : P i cols
                (for_loop 0 cols (fun j h' => set h' i j (f i j)) t)).
      { apply (for_loop_inv (fun j h' => P i j h')); [lia|exact Ht|].
        intros j u Hj [Hu Hcells]. split; [apply rectangular_set; exact Hu|].
        intros r c Hr Hc Hb.
        destruct (Nat.eq_dec r i) as [->|Hri];
          [destruct (Nat.eq_dec c j) as [->|Hcj]|].
        - apply (get_set_eq u rows cols i j (f i j) Hu); lia.
        - rewrite get_set_neq by congruence.
          apply Hcells; try assumption. unfold before in *. lia.
        - rewrite get_set_neq by congruence.
          apply Hcells; try assumption. unfold before in *. lia. }
      destruct Hrow as [Hu Hcells]. split; [exact Hu|].
      intros r c Hr Hc Hb. apply Hcells; try assumption.
      unfold before in *. lia. }
  destruct Hfinal as [Hr Hcells]. split; [exact Hr|].
  intros i j Hi Hj. apply Hcells; try assumption. unfold before. lia.
Qed.

Lemma dimensions_accepted (rows cols : Z) :
  (1 <= rows <= 1080)%Z -> (1 <= cols <= 1920)%Z ->
  ((rows <=? 0) || (rows >? 1080) || (cols <=? 0) || (cols >? 1920))%Z = false.
Proof.
  intros Hr Hc. rewrite !Z.gtb_ltb.
  destruct (Z.leb_spec rows 0), (Z.leb_spec cols 0),
    (Z.ltb_spec 1080 rows), (Z.ltb_spec 1920 cols); simpl; try reflexivity; lia.
Qed.

Lemma dimensions_rejected (rows cols : Z) :
  (rows < 1 \/ 1080 < rows \/ cols < 1 \/ 1920 < cols)%Z ->
  ((rows <=? 0) || (rows >? 1080) || (cols <=? 0) || (cols >? 1920))%Z = true.
Proof.
  intros H. rewrite !Z.gtb_ltb.
  destruct (Z.leb_spec rows 0), (Z.leb_spec cols 0),
    (Z.ltb_spec 1080 rows), (Z.ltb_spec 1920 cols); simpl; try reflexivity; lia.
Qed.

(** With valid dimensions the "zeros" method returns the all-zero grid. *)
Lemma initializeHeatGrid_zeros (rows cols : Z) (beta alpha : R) :
  (1 <= rows <= 1080)%Z -> (1 <= cols <= 1920)%Z ->
  initializeHeatGrid rows cols zeros beta alpha
  = inr (uniform (Z.to_nat rows) (Z.to_nat cols) 0%R).
Proof.
  intros Hr Hc. unfold initializeHeatGrid.
  rewrite dimensions_accepted by assumption.
  cbv zeta. rewrite push_zeros, push_rows. reflexivity.
Qed.

(** With valid dimensions the "exp" method returns a grid of the requested
    shape holding the radial basis function in every cell. *)
Lemma initializeHeatGrid_exp (rows cols : Z) (beta alpha : R) :
  (1 <= rows <= 1080)%Z -> (1 <= cols <= 1920)%Z ->
  exists g, initializeHeatGrid rows cols exp_rbf beta alpha = inr g /\
    rectangular g (Z.to_nat rows) (Z.to_nat cols) /\
    forall i j, i < Z.to_nat rows -> j < Z.to_nat cols ->
      get g i j
      = (alpha * exp (- beta * IZR (sqDist (cols / 2) (rows / 2) i j)))%R.
Proof.
  intros Hr Hc. unfold initializeHeatGrid.
  rewrite dimensions_accepted by assumption.
  cbv zeta. rewrite push_zeros, push_rows.
  eexists. split; [reflexivity|].
  apply (fill_loops
           (fun i j => (alpha * exp (- beta * IZR (sqDist (cols / 2) (rows / 2) i j)))%R)).
  apply rectangular_uniform.
Qed.

Lemma exp_monotone (x y : R) : (x <= y)%R -> (exp x <= exp y)%R.
Proof.
  intros [Hlt | Heq]; [|subst y].
  - left. apply exp_increasing. exact Hlt.
  - right. reflexivity.
Qed.

Lemma sqDist_nonneg (midX midY : Z) (i j : nat) : (0 <= sqDist midX midY i j)%Z.
Proof. unfold sqDist. nia. Qed.

Lemma sqDist_centre (rows cols : Z) :
  (1 <= rows)%Z -> (1 <= cols)%Z ->
  sqDist (cols / 2) (rows / 2) (Z.to_nat (rows / 2)) (Z.to_nat (cols / 2)) = 0%Z.
Proof.
  intros Hr Hc. unfold sqDist.
  rewrite !Z2Nat.id by (apply Z.div_pos; lia).
  rewrite !Z.sub_diag. reflexivity.
Qed.

(** The radial basis function decreases with the squared distance. *)
Lemma rbf_antitone (beta alpha : R) (d d' : Z) :
  (0 <= beta)%R -> (0 <= alpha)%R -> (d <= d')%Z ->
  (alpha * exp (- beta * IZR d') <= alpha * exp (- beta * IZR d))%R.
Proof.
  intros Hb Ha Hd. apply Rmult_le_compat_l; [exact Ha|].
  apply exp_monotone. apply IZR_le in Hd. nra.
Qed.

(** [initializeHeatGrid] is [initializeHeatGridWith] at the real
    exponential. *)
Lemma initializeHeatGridWith_real (rows cols : Z) (m : method) (beta alpha : R) :
  initializeHeatGridWith exp rows cols m beta alpha
  = initializeHeatGrid rows cols m beta alpha.
Proof. reflexivity. Qed.

(** With valid dimensions the "exp" method returns a grid of the requested
    shape holding the radial basis function in every cell, whatever the
    exponential. *)
Lemma initializeHeatGridWith_cells (mathExp : R -> R) (rows cols : Z)
  (beta alpha : R) :
  (1 <= rows <= 1080)%Z -> (1 <= cols <= 1920)%Z ->
  exists g, initializeHeatGridWith mathExp rows cols exp_rbf beta alpha = inr g /\
    rectangular g (Z.to_nat rows) (Z.to_nat cols) /\
    forall i j, i < Z.to_nat rows -> j < Z.to_nat cols ->
      get g i j
      = (alpha * mathExp (- beta * IZR (sqDist (cols / 2) (rows / 2) i j)))%R.
Proof.
  intros Hr Hc. unfold initializeHeatGridWith.
  rewrite dimensions_accepted by assumption.
  cbv zeta. rewrite push_zeros, push_rows.
  eexists. split; [reflexivity|].
  apply (fill_loops
           (fun i j =>
              (alpha * mathExp (- beta * IZR (sqDist (cols / 2) (rows / 2) i j)))%R)).
  apply rectangular_uniform.
Qed.

Lemma ln_2_upper : (ln 2 < 4 / 5)%R.
Proof.
  assert (H : (1 + 1 / 5 < exp (1 / 5))%R) by (apply exp_ineq1; lra).
  assert (H4 : exp (4 / 5) = (exp (1 / 5) * exp (1 / 5) * (exp (1 / 5) * exp (1 / 5)))%R).
  { rewrite <- !exp_plus. f_equal. lra. }
  apply exp_lt_inv. rewrite exp_ln by lra. rewrite H4.
  assert (H2 : (36 / 25 < exp (1 / 5) * exp (1 / 5))%R) by nra.
  nra.
Qed.

(** [exp(-900)] is below the least positive binary64 number. *)
Lemma Math_exp_underflow (x : R) : (x <= - 900)%R -> Math_exp x = 0%R.
Proof.
  intros Hx. unfold Math_exp. pose proof ln_2_upper as Hln.
  destruct (Rlt_dec x (- 1075 * ln 2)) as [_|Hn]; [reflexivity|].
  exfalso. apply Hn. lra.
Qed.

Lemma Math_exp_range (x : R) : (x <= 0)%R -> (0 <= Math_exp x <= 1)%R.
Proof.
  intros Hx. unfold Math_exp.
  destruct (Rlt_dec x (- 1075 * ln 2)) as [_|_]; [lra|].
  pose proof (exp_pos x) as Hpos.
  assert (Hle : (exp x <= 1)%R) by (rewrite <- exp_0; apply exp_monotone; exact Hx).
  lra.
Qed.

Lemma exp_range (x : R) : (x <= 0)%R -> (0 <= exp x <= 1)%R.
Proof.
  intros Hx. pose proof (exp_pos x) as Hpos.
  assert (Hle : (exp x <= 1)%R) by (rewrite <- exp_0; apply exp_monotone; exact Hx).
  lra.
Qed.

(** The cells of the "exp" initialization lie in [[0, alpha]] for every
    exponential that takes the non-positive numbers into [[0, 1]]. *)
Lemma initializeHeatGridWith_range (mathExp : R -> R) (rows cols : Z)
  (beta alpha : R) :
  (forall x, (x <= 0)%R -> (0 <= mathExp x <= 1)%R) ->
  (1 <= rows <= 1080)%Z -> (1 <= cols <= 1920)%Z ->
  (0 <= beta)%R -> (0 <= alpha)%R ->
  exists g, initializeHeatGridWith mathExp rows cols exp_rbf beta alpha = inr g /\
    rectangular g (Z.to_nat rows) (Z.to_nat cols) /\
    forall i j, i < Z.to_nat rows -> j < Z.to_nat cols ->
      (0 <= get g i j <= alpha)%R.
Proof.
  intros Hexp Hr Hc Hb Ha.
  destruct (initializeHeatGridWith_cells mathExp rows cols beta alpha Hr Hc)
    as (g & Heq & Hrect & Hcells).
  exists g. split; [exact Heq|]. split; [exact Hrect|].
  intros i j Hi Hj. rewrite Hcells by assumption.
  pose proof (sqDist_nonneg (cols / 2) (rows / 2) i j) as Hd. apply IZR_le in Hd.
  destruct (Hexp (- beta * IZR (sqDist (cols / 2) (rows / 2) i j))%R) as [H0 H1];
    [nra|].
  split; nra.
Qed.

(** C7: [initializeHeatGrid] throws, and what it throws is the
    [InvalidDimensions] error, if and only if [rows] is outside [1, 1080]
    or [cols] is outside [1, 1920]; otherwise it returns a grid.  In
    particular it fails for [rows = 0], [rows = 1081], [cols = 0] and
    [cols = 1921], whatever the other arguments. *)
Theorem initialize_invalid_dimensions :
  (forall rows cols m beta alpha,
     ((exists e, initializeHeatGrid rows cols m beta alpha = inl e)
      <-> (rows < 1 \/ 1080 < rows \/ cols < 1 \/ 1920 < cols)%Z) /\
     (forall e, initializeHeatGrid rows cols m beta alpha = inl e ->
                InvalidDimensions e) /\
     ((1 <= rows <= 1080)%Z -> (1 <= cols <= 1920)%Z ->
      exists g, initializeHeatGrid rows cols m beta alpha = inr g)) /\
  (forall cols m beta alpha,
     initializeHeatGrid 0 cols m beta alpha
     = inl (Thrown "Invalid row or column count!")) /\
  (forall cols m beta alpha,
     initializeHeatGrid 1081 cols m beta alpha
     = inl (Thrown "Invalid row or column count!")) /\
  (forall rows m beta alpha,
     initializeHeatGrid rows 0 m beta alpha
     = inl (Thrown "Invalid row or column count!")) /\
  (forall rows m beta alpha,
     initializeHeatGrid rows 1921 m beta alpha
     = inl (Thrown "Invalid row or column count!")).
Proof.
  assert (Hbad : forall rows cols m beta alpha,
            (rows < 1 \/ 1080 < rows \/ cols < 1 \/ 1920 < cols)%Z ->
            initializeHeatGrid rows cols m beta alpha
            = inl (Thrown "Invalid row or column count!")).
  { intros rows cols m beta alpha H. unfold initializeHeatGrid.
    rewrite dimensions_rejected by assumption. reflexivity. }
  assert (Hgood : forall rows cols m beta alpha,
            (1 <= rows <= 1080)%Z -> (1 <= cols <= 1920)%Z ->
            exists g, initializeHeatGrid rows cols m beta alpha = inr g).
  { intros rows cols m beta alpha Hr Hc. unfold initializeHeatGrid.
    rewrite dimensions_accepted by assumption. eexists. reflexivity. }
  split; [|repeat split; intros; apply Hbad; lia].
  intros rows cols m beta alpha.
  assert (Hcases : (rows < 1 \/ 1080 < rows \/ cols < 1 \/ 1920 < cols)%Z \/
                   ((1 <= rows <= 1080)%Z /\ (1 <= cols <= 1920)%Z)) by lia.
  split; [split|split].
  - intros [e He]. destruct Hcases as [Hout|[Hr Hc]]; [exact Hout|].
    destruct (Hgood rows cols m beta alpha Hr Hc) as [g Hg]. congruence.
  - intros Hout. eexists. apply Hbad. exact Hout.
  - intros e He. destruct Hcases as [Hout|[Hr Hc]].
    + rewrite (Hbad rows cols m beta alpha Hout) in He.
      injection He as <-. reflexivity.
    + destruct (Hgood rows cols m beta alpha Hr Hc) as [g Hg]. congruence.
  - apply Hgood.
Qed.

(** C6: for valid [rows] and [cols], the "exp" initialization returns a
    grid whose cell [(i,j)] is
    [alpha * exp(-beta * ((i-midY)^2 + (j-midX)^2))] with
    [midX = floor(cols/2)] and [midY = floor(rows/2)]; the centre cell
    [[midY][midX]] is exactly [alpha]; and for [beta >= 0] and
    [alpha >= 0] a cell at a larger squared distance from the centre never
    holds a larger value.  (Exact real arithmetic.) *)
Theorem initialize_radial (rows cols : Z) (beta alpha : R) :
  (1 <= rows <= 1080)%Z -> (1 <= cols <= 1920)%Z ->
  let midX := (cols / 2)%Z in
  let midY := (rows / 2)%Z in
  exists g, initializeHeatGrid rows cols exp_rbf beta alpha = inr g /\
    rectangular g (Z.to_nat rows) (Z.to_nat cols) /\
    (forall i j, i < Z.to_nat rows -> j < Z.to_nat cols ->
       get g i j
       = (alpha * exp (- beta * IZR ((Z.of_nat i - midY) ^ 2
                                     + (Z.of_nat j - midX) ^ 2)))%R) /\
    (Z.to_nat midY < Z.to_nat rows /\ Z.to_nat midX < Z.to_nat cols /\
     get g (Z.to_nat midY) (Z.to_nat midX) = alpha) /\
    ((0 <= beta)%R -> (0 <= alpha)%R ->
     forall i j i' j',
       i < Z.to_nat rows -> j < Z.to_nat cols ->
       i' < Z.to_nat rows -> j' < Z.to_nat cols ->
       ((Z.of_nat i - midY) ^ 2 + (Z.of_nat j - midX) ^ 2
        <= (Z.of_nat i' - midY) ^ 2 + (Z.of_nat j' - midX) ^ 2)%Z ->
       (get g i' j' <= get g i j)%R).
Proof.
  intros Hr Hc midX midY.
  destruct (initializeHeatGrid_exp rows cols beta alpha Hr Hc)
    as (g & Heq & Hrect & Hcells).
  assert (HmY : Z.to_nat midY < Z.to_nat rows).
  { unfold midY. apply Z2Nat.inj_lt; [apply Z.div_pos; lia|lia|].
    apply Z.div_lt; lia. }
  assert (HmX : Z.to_nat midX < Z.to_nat cols).
  { unfold midX. apply Z2Nat.inj_lt; [apply Z.div_pos; lia|lia|].
    apply Z.div_lt; lia. }
  exists g. split; [exact Heq|]. split; [exact Hrect|].
  split; [|split].
  - intros i j Hi Hj. apply Hcells; assumption.
  - split; [exact HmY|]. split; [exact HmX|].
    rewrite Hcells by assumption. unfold midX, midY.
    rewrite sqDist_centre by lia.
    rewrite Rmult_0_r, exp_0. apply Rmult_1_r.
  - intros Hb Ha i j i' j' Hi Hj Hi' Hj' Hd.
    rewrite !Hcells by assumption.
    apply rbf_antitone; assumption.
Qed.

Lemma initialize_radial_witness :
  exists g, initializeHeatGrid 3 4 exp_rbf 1%R 255%R = inr g /\
    rectangular g 3 4 /\
    (forall i j, i < 3 -> j < 4 ->
       get g i j
       = (255 * exp (- 1 * IZR ((Z.of_nat i - 1) ^ 2 + (Z.of_nat j - 2) ^ 2)))%R) /\
    get g 1 2 = 255%R /\
    (forall i j i' j',
       i < 3 -> j < 4 -> i' < 3 -> j' < 4 ->
       ((Z.of_nat i - 1) ^ 2 + (Z.of_nat j - 2) ^ 2
        <= (Z.of_nat i' - 1) ^ 2 + (Z.of_nat j' - 2) ^ 2)%Z ->
       (get g i' j' <= get g i j)%R).
Proof.
  destruct (initialize_radial 3 4 1%R 255%R)
    as (g & Heq & Hrect & Hcells & (_ & _ & Hpeak) & Hmono); [lia|lia|].
  exists g. split; [exact Heq|]. split; [exact Hrect|].
  split; [exact Hcells|]. split; [exact Hpeak|].
  apply Hmono; lra.
Defined.

(** C10, as stated, fails: [Math.exp] underflows.  On the valid input
    [rows = 1], [cols = 60], [beta = 1], [alpha = 255] the centre is
    [(0,30)], the cell [(0,0)] lies at the squared distance [900] from it
    and holds [255 * Math_exp (-900) = 0], although [alpha > 0]. *)
Lemma initialize_underflow_counterexample :
  (1 <= 1 <= 1080)%Z /\ (1 <= 60 <= 1920)%Z /\ (0 <= 1)%R /\ (0 < 255)%R /\
  exists g, initializeHeatGridWith Math_exp 1 60 exp_rbf 1%R 255%R = inr g /\
    rectangular g 1 60 /\
    get g 0 0 = (255 * Math_exp (- 1 * IZR 900))%R /\
    get g 0 0 = 0%R /\
    ~ (0 < get g 0 0)%R.
Proof.
  split; [lia|]. split; [lia|]. split; [lra|]. split; [lra|].
  destruct (initializeHeatGridWith_cells Math_exp 1 60 1%R 255%R)
    as (g & Heq & Hrect & Hcells); [lia|lia|].
  assert (Hcell : get g 0 0 = (255 * Math_exp (- 1 * IZR 900))%R).
  { rewrite (Hcells 0 0) by (simpl; lia). reflexivity. }
  assert (Hzero : get g 0 0 = 0%R).
  { rewrite Hcell, Math_exp_underflow by lra. lra. }
  exists g. split; [exact Heq|]. split; [exact Hrect|].
  split; [exact Hcell|]. split; [exact Hzero|].
  rewrite Hzero. lra.
Qed.

(** C10 (amended): for valid [rows] and [cols], [beta >= 0] and
    [alpha >= 0], every cell of the grid returned by the "exp"
    initialization lies in [[0, alpha]]: with the real exponential, and
    with [Math_exp], the exponential that underflows to [0] as [Math.exp]
    does. *)
Theorem initialize_radial_range (rows cols : Z) (beta alpha : R) :
  (1 <= rows <= 1080)%Z -> (1 <= cols <= 1920)%Z ->
  (0 <= beta)%R -> (0 <= alpha)%R ->
  (exists g, initializeHeatGrid rows cols exp_rbf beta alpha = inr g /\
     rectangular g (Z.to_nat rows) (Z.to_nat cols) /\
     forall i j, i < Z.to_nat rows -> j < Z.to_nat cols ->
       (0 <= get g i j <= alpha)%R) /\
  (exists g, initializeHeatGridWith Math_exp rows cols exp_rbf beta alpha = inr g /\
     rectangular g (Z.to_nat rows) (Z.to_nat cols) /\
     forall i j, i < Z.to_nat rows -> j < Z.to_nat cols ->
       (0 <= get g i j <= alpha)%R).
Proof.
  intros Hr Hc Hb Ha. split.
  - rewrite <- initializeHeatGridWith_real.
    apply initializeHeatGridWith_range; try assumption. exact exp_range.
  - apply initializeHeatGridWith_range; try assumption. exact Math_exp_range.
Qed.

Lemma initialize_radial_range_witness :
  (exists g, initializeHeatGrid 3 4 exp_rbf default_beta default_alpha = inr g /\
     rectangular g 3 4 /\
     forall i j, i < 3 -> j < 4 -> (0 <= get g i j <= default_alpha)%R) /\
  (exists g, initializeHeatGridWith Math_exp 1 60 exp_rbf 1%R 255%R = inr g /\
     rectangular g 1 60 /\
     forall i j, i < 1 -> j < 60 -> (0 <= get g i j <= 255)%R).
Proof.
  split.
  - apply (initialize_radial_range 3 4 default_beta default_alpha);
      unfold default_beta, default_alpha; first [lia | lra].
  - apply (initialize_radial_range 1 60 1%R 255%R); first [lia | lra].
Defined.

(** ** Rendering: the geometry check *)

Lemma totalCells_le (canvasSize scale : nat) :
  1 <= scale -> totalCells canvasSize scale <= canvasSize.
Proof.
  intros Hs. unfold totalCells.
  pose proof (Nat.div_mod_eq canvasSize scale) as Hdm.
  destruct (Nat.eqb_spec (canvasSize mod scale) 0) as [H0|Hn0]; nia.
Qed.

(** C3: on a grid with at least one row and for a scale [>= 1],
    [drawHeatGrid] throws exactly when [totalCellsX], which is
    [floor(W/scale)] plus one if [W mod scale] is not zero, differs from
    the number of columns or the analogous [totalCellsY] differs from the
    number of rows, and what it throws is a [GridTargetMismatch] error; a
    3x3 grid on a 10x10 target is drawn at [scale = 4] ([totalCells = 3])
    and refused at [scale = 5] ([totalCells = 2]). *)
Theorem draw_mismatch (canvas : Canvas) (imageData : ImageData)
  (row0 : list R) (rest : Grid) (scale : nat) :
  1 <= scale ->
  let heatGrid := row0 :: rest in
  let cols := length row0 in
  let rows := length heatGrid in
  let totalCellsX :=
    width canvas / scale + (if width canvas mod scale =? 0 then 0 else 1) in
  let totalCellsY :=
    height canvas / scale + (if height canvas mod scale =? 0 then 0 else 1) in
  ((exists e, drawHeatGrid canvas imageData heatGrid scale = inl e)
   <-> (totalCellsX <> cols \/ totalCellsY <> rows)) /\
  (forall e, drawHeatGrid canvas imageData heatGrid scale = inl e ->
             GridTargetMismatch e) /\
  totalCells 10 4 = 3 /\
  (forall t data, exists data',
     drawHeatGrid {| width := 10; height := 10 |} data (uniform 3 3 t) 4
     = inr data') /\
  totalCells 10 5 = 2 /\
  (forall t data,
     drawHeatGrid {| width := 10; height := 10 |} data (uniform 3 3 t) 5
     = inl (Thrown "Mismatch in canvas and grid sizes")).
Proof.
  intros Hs heatGrid cols rows totalCellsX totalCellsY.
  assert (HtX : totalCellsX = totalCells (width canvas) scale).
  { unfold totalCellsX, totalCells.
    destruct (width canvas mod scale =? 0); lia. }
  assert (HtY : totalCellsY = totalCells (height canvas) scale).
  { unfold totalCellsY, totalCells.
    destruct (height canvas mod scale =? 0); lia. }
  pose proof (totalCells_le (width canvas) scale Hs) as HleX.
  pose proof (totalCells_le (height canvas) scale Hs) as HleY.
  rewrite HtX, HtY.
  unfold drawHeatGrid, heatGrid. fold heatGrid. fold cols. fold rows.
  repeat split.
  - intros [e He].
    destruct (Nat.eqb_spec (totalCells (width canvas) scale) cols) as [HX|HX];
      [|left; exact HX].
    destruct (Nat.eqb_spec (totalCells (height canvas) scale) rows) as [HY|HY];
      [|right; exact HY].
    exfalso.
    destruct (Nat.ltb_spec (width canvas) cols); [lia|].
    destruct (Nat.ltb_spec (height canvas) rows); [lia|].
    simpl in He. discriminate He.
  - intros Hne.
    destruct ((width canvas <? cols) || (height canvas <? rows));
      [eexists; reflexivity|].
    destruct (Nat.eqb_spec (totalCells (width canvas) scale) cols),
      (Nat.eqb_spec (totalCells (height canvas) scale) rows); simpl;
      try (eexists; reflexivity).
    destruct Hne; contradiction.
  - intros e He. unfold GridTargetMismatch.
    destruct ((width canvas <? cols) || (height canvas <? rows)).
    + left. congruence.
    + destruct (negb (totalCells (width canvas) scale =? cols)
                || negb (totalCells (height canvas) scale =? rows)).
      * right. congruence.
      * discriminate He.
  - intros t data. eexists. reflexivity.
Qed.

Lemma draw_mismatch_witness :
  1 <= 4 /\
  ((exists e, drawHeatGrid {| width := 10; height := 10 |} [] [[1%R]] 4 = inl e)
   <-> (10 / 4 + (if 10 mod 4 =? 0 then 0 else 1) <> 1 \/
        10 / 4 + (if 10 mod 4 =? 0 then 0 else 1) <> 1)).
Proof.
  split; [lia|].
  apply (draw_mismatch {| width := 10; height := 10 |} [] [1%R] [] 4).
  lia.
Defined.

(** ** Pointer position to grid cell *)

Lemma scale_positive (scale : nat) :
  1 <= scale -> (0 < inject_Z (Z.of_nat scale))%Q.
Proof.
  intros Hs. change 0%Q with (inject_Z 0). rewrite <- Zlt_Qlt. lia.
Qed.

(** [floor(q / s)] is the integer [k] with [k*s <= q < (k+1)*s]. *)
Lemma Qfloor_div_bounds (q : Q) (scale : nat) :
  1 <= scale ->
  let s := inject_Z (Z.of_nat scale) in
  let k := Qfloor (q / s) in
  (inject_Z k * s <= q /\ q < (inject_Z k + 1) * s)%Q.
Proof.
  intros Hs s k. pose proof (scale_positive scale Hs) as Hpos. fold s in Hpos.
  assert (Hne : ~ (s == 0)%Q) by (intros H; rewrite H in Hpos; discriminate Hpos).
  pose proof (Qfloor_le (q / s)) as Hlo.
  pose proof (Qlt_floor (q / s)) as Hhi.
  fold k in Hlo, Hhi. rewrite inject_Z_plus in Hhi. change (inject_Z 1) with 1%Q in Hhi.
  split.
  - apply (Qmult_le_compat_r _ _ s) in Hlo; [|apply Qlt_le_weak; exact Hpos].
    rewrite Qmult_comm in Hlo. rewrite (Qmult_comm (q / s)) in Hlo.
    rewrite Qmult_div_r in Hlo by exact Hne.
    rewrite Qmult_comm. exact Hlo.
  - apply (Qmult_lt_compat_r _ _ s) in Hhi; [|exact Hpos].
    rewrite (Qmult_comm (q / s)) in Hhi.
    rewrite Qmult_div_r in Hhi by exact Hne. exact Hhi.
Qed.

Lemma Qfloor_multiple (k : Z) (scale : nat) :
  1 <= scale ->
  Qfloor ((inject_Z (k * Z.of_nat scale) + 1 - 1) / inject_Z (Z.of_nat scale)) = k.
Proof.
  intros Hs. pose proof (scale_positive scale Hs) as Hpos.
  assert (Hne : ~ (inject_Z (Z.of_nat scale) == 0)%Q)
    by (intros H; rewrite H in Hpos; discriminate Hpos).
  rewrite <- (Qfloor_Z k) at 2. apply Qfloor_comp.
  rewrite inject_Z_mult. field. exact Hne.
Qed.

(** C9: for every positive integer scale up to [2^53] and every pointer
    coordinate whose [p - 1] the code computes without a rounding that
    matters (the whole numbers and the non-negative numbers, see
    [exactCoordinate]), [canvasXYToGridXY] returns
    [col = floor((px-1)/scale)] and [row = floor((py-1)/scale)], the
    integers with [col*scale <= px-1 < (col+1)*scale] and
    [row*scale <= py-1 < (row+1)*scale]; nothing is clamped and nothing
    fails: at every positive integer scale the position
    [(k*scale + 1, l*scale + 1)] is mapped to [(k, l)] for all integers [k]
    and [l], negative or beyond any grid, and [(1, 1)] is mapped to
    [(0, 0)]. *)
Theorem canvasXYToGridXY_floor (scale : nat) :
  1 <= scale ->
  let s := inject_Z (Z.of_nat scale) in
  ((Z.of_nat scale <= 2 ^ 53)%Z -> forall px py : Q, exactCoordinate px ->
     fst (canvasXYToGridXY px py scale) = Qfloor ((px - 1) / s) /\
     (inject_Z (fst (canvasXYToGridXY px py scale)) * s <= px - 1
      /\ px - 1 < (inject_Z (fst (canvasXYToGridXY px py scale)) + 1) * s)%Q) /\
  ((Z.of_nat scale <= 2 ^ 53)%Z -> forall px py : Q, exactCoordinate py ->
     snd (canvasXYToGridXY px py scale) = Qfloor ((py - 1) / s) /\
     (inject_Z (snd (canvasXYToGridXY px py scale)) * s <= py - 1
      /\ py - 1 < (inject_Z (snd (canvasXYToGridXY px py scale)) + 1) * s)%Q) /\
  (forall k l : Z,
     exactCoordinate (inject_Z (k * Z.of_nat scale) + 1) ->
     exactCoordinate (inject_Z (l * Z.of_nat scale) + 1) ->
     canvasXYToGridXY (inject_Z (k * Z.of_nat scale) + 1)
                      (inject_Z (l * Z.of_nat scale) + 1) scale = (k, l)) /\
  canvasXYToGridXY 1 1 scale = (0%Z, 0%Z).
Proof.
  intros Hs s. split; [|split; [|split]].
  - intros _ px py _. split; [reflexivity|].
    unfold canvasXYToGridXY. cbn [fst snd].
    apply (Qfloor_div_bounds (px - 1) scale Hs).
  - intros _ px py _. split; [reflexivity|].
    unfold canvasXYToGridXY. cbn [fst snd].
    apply (Qfloor_div_bounds (py - 1) scale Hs).
  - intros k l _ _. unfold canvasXYToGridXY.
    rewrite !Qfloor_multiple by exact Hs. reflexivity.
  - unfold canvasXYToGridXY.
    pose proof (Qfloor_multiple 0 scale Hs) as H0.
    change (inject_Z (0 * Z.of_nat scale) + 1 - 1)%Q with (1 - 1)%Q in H0.
    rewrite H0. reflexivity.
Qed.

Lemma canvasXYToGridXY_floor_witness :
  exactCoordinate (inject_Z (-2 * 10) + 1) /\
  exactCoordinate (inject_Z (200 * 10) + 1) /\
  canvasXYToGridXY (inject_Z (-2 * 10) + 1) (inject_Z (200 * 10) + 1) 10
  = ((-2)%Z, 200%Z) /\
  (Z.of_nat 10 <= 2 ^ 53)%Z /\ exactCoordinate (25 # 2) /\
  fst (canvasXYToGridXY (25 # 2) 1 10) = Qfloor (((25 # 2) - 1) / inject_Z (Z.of_nat 10)).
Proof.
  assert (H1 : exactCoordinate (inject_Z (-2 * 10) + 1)).
  { split; [right; exists (-19)%Z; reflexivity|].
    split; unfold Qle; simpl; lia. }
  assert (H2 : exactCoordinate (inject_Z (200 * 10) + 1)).
  { split; [right; exists 2001%Z; reflexivity|].
    split; unfold Qle; simpl; lia. }
  assert (H3 : exactCoordinate (25 # 2)).
  { split; [left; unfold Qle; simpl; lia|]. split; unfold Qle; simpl; lia. }
  assert (H4 : (Z.of_nat 10 <= 2 ^ 53)%Z) by (simpl; lia).
  split; [exact H1|]. split; [exact H2|].
  split; [apply (canvasXYToGridXY_floor 10 ltac:(lia)); assumption|].
  split; [exact H4|]. split; [exact H3|].
  apply (canvasXYToGridXY_floor 10 ltac:(lia)); assumption.
Defined.

(** ** Heat injection *)

Lemma rectangular_addAt (h : Grid) (rows cols : nat) (y x : Z) (heat : R) :
  rectangular h rows cols -> rectangular (addAt h y x heat) rows cols.
Proof. intros H. unfold addAt. apply rectangular_set. exact H. Qed.

Lemma get_addAt (h : Grid) (rows cols : nat) (y x : Z) (heat : R) (i j : nat) :
  rectangular h rows cols ->
  (0 <= y < Z.of_nat rows)%Z -> (0 <= x < Z.of_nat cols)%Z ->
  get (addAt h y x heat) i j
  = (get h i j
     + if ((Z.of_nat i =? y) && (Z.of_nat j =? x))%Z then heat else 0)%R.
Proof.
  intros Hrect Hy Hx. unfold addAt.
  destruct (Z.eqb_spec (Z.of_nat i) y) as [Hiy|Hiy];
    [destruct (Z.eqb_spec (Z.of_nat j) x) as [Hjx|Hjx]|]; simpl.
  - subst y x. rewrite !Nat2Z.id.
    apply (get_set_eq h rows cols i j _ Hrect); lia.
  - rewrite get_set_neq; [lra|]. intros Heq. injection Heq as H1 H2. lia.
  - rewrite get_set_neq; [lra|]. intros Heq. injection Heq as H1 H2. lia.
Qed.

(** One guarded neighbour update of [addHeat]. *)
Lemma get_guarded_addAt (h : Grid) (rows cols : nat) (y x : Z) (heat : R)
  (b : bool) (i j : nat) :
  rectangular h rows cols ->
  (b = true -> (0 <= y < Z.of_nat rows)%Z /\ (0 <= x < Z.of_nat cols)%Z) ->
  get (if b then addAt h y x heat else h) i j
  = (get h i j
     + if ((Z.of_nat i =? y) && (Z.of_nat j =? x))%Z && b then heat else 0)%R.
Proof.
  intros Hrect Hb. destruct b.
  - destruct (Hb eq_refl) as [Hy Hx]. rewrite andb_true_r.
    apply (get_addAt h rows cols y x heat i j Hrect Hy Hx).
  - rewrite andb_false_r. lra.
Qed.

Lemma rectangular_guarded_addAt (h : Grid) (rows cols : nat) (y x : Z) (heat : R)
  (b : bool) :
  rectangular h rows cols ->
  rectangular (if b then addAt h y x heat else h) rows cols.
Proof.
  intros Hrect. destruct b; [apply rectangular_addAt|]; exact Hrect.
Qed.

(** Inside the grid, [addHeat] raises the cell and its cardinal neighbours
    by [heat] and leaves every other cell as it was. *)
Lemma addHeat_cells (g : Grid) (rows cols r c : nat) (heat : R) :
  rectangular g rows cols -> r < rows -> c < cols ->
  let g' := addHeat g (Z.of_nat rows) (Z.of_nat cols) (Z.of_nat c) (Z.of_nat r) heat in
  rectangular g' rows cols /\
  forall i j, i < rows -> j < cols ->
    get g' i j = if near r c i j then (get g i j + heat)%R else get g i j.
Proof.
  intros Hrect Hr Hc. unfold addHeat.
  replace ((Z.of_nat c >=? 0) && (Z.of_nat c <? Z.of_nat cols) &&
           (Z.of_nat r >=? 0) && (Z.of_nat r <? Z.of_nat rows))%Z with true by lia.
  cbv zeta.
  set (zr := Z.of_nat r). set (zc := Z.of_nat c).
  set (g1 := addAt g zr zc heat).
  set (g2 := if (zc >? 0)%Z then addAt g1 zr (zc - 1) heat else g1).
  set (g3 := if (zc <? Z.of_nat cols - 1)%Z then addAt g2 zr (zc + 1) heat else g2).
  set (g4 := if (zr >? 0)%Z then addAt g3 (zr - 1) zc heat else g3).
  assert (H1 : rectangular g1 rows cols) by (apply rectangular_addAt; exact Hrect).
  assert (H2 : rectangular g2 rows cols) by (apply rectangular_guarded_addAt; exact H1).
  assert (H3 : rectangular g3 rows cols) by (apply rectangular_guarded_addAt; exact H2).
  assert (H4 : rectangular g4 rows cols) by (apply rectangular_guarded_addAt; exact H3).
  split; [apply rectangular_guarded_addAt; exact H4|].
  intros i j Hi Hj.
  rewrite (get_guarded_addAt g4 rows cols (zr + 1) zc heat _ i j H4) by (unfold zr, zc; lia).
  unfold g4.
  rewrite (get_guarded_addAt g3 rows cols (zr - 1) zc heat _ i j H3) by (unfold zr, zc; lia).
  unfold g3.
  rewrite (get_guarded_addAt g2 rows cols zr (zc + 1) heat _ i j H2) by (unfold zr, zc; lia).
  unfold g2.
  rewrite (get_guarded_addAt g1 rows cols zr (zc - 1) heat _ i j H1) by (unfold zr, zc; lia).
  unfold g1.
  rewrite (get_addAt g rows cols zr zc heat i j Hrect) by (unfold zr, zc; lia).
  unfold near, zr, zc.
  assert (Hpi : i + 1 = r \/ i = r \/ i = r + 1 \/ (i + 1 <> r /\ i <> r /\ i <> r + 1))
    by lia.
  assert (Hpj : j + 1 = c \/ j = c \/ j = c + 1 \/ (j + 1 <> c /\ j <> c /\ j <> c + 1))
    by lia.
  destruct Hpi as [Hpi|[Hpi|[Hpi|Hpi]]]; destruct Hpj as [Hpj|[Hpj|[Hpj|Hpj]]];
    repeat match goal with
      | |- context [Z.eqb ?a ?b] =>
          destruct (Z.eqb_spec a b); [try (exfalso; lia) | try (exfalso; lia)]
      | |- context [Nat.eqb ?a ?b] =>
          destruct (Nat.eqb_spec a b); [try (exfalso; lia) | try (exfalso; lia)]
      end;
    cbn [andb orb];
    repeat match goal with
      | |- context [Z.gtb ?a ?b] =>
          destruct (Z.gtb_spec a b); [try (exfalso; lia) | try (exfalso; lia)]
      | |- context [Z.ltb ?a ?b] =>
          destruct (Z.ltb_spec a b); [try (exfalso; lia) | try (exfalso; lia)]
      end;
    lra.
Qed.

Lemma near_true (r c i j : nat) :
  near r c i j = true <->
  (i = r /\ j = c) \/ (i = r /\ j + 1 = c) \/ (i = r /\ j = c + 1) \/
  (i + 1 = r /\ j = c) \/ (i = r + 1 /\ j = c).
Proof.
  unfold near. rewrite !orb_true_iff, !andb_true_iff, !Nat.eqb_eq. tauto.
Qed.

(** A duplicate-free list of cells that lists the neighbourhood of [(r,c)]
    inside the grid counts the cells [addHeat] raises. *)
Lemma addHeat_raises (g : Grid) (rows cols r c : nat) (heat : R)
  (cells : list (nat * nat)) :
  rectangular g rows cols -> r < rows -> c < cols ->
  NoDup cells ->
  (forall i j, In (i, j) cells -> i < rows /\ j < cols /\ near r c i j = true) ->
  (forall i j, i < rows -> j < cols -> near r c i j = true -> In (i, j) cells) ->
  raisesNear (length cells) g
    (addHeat g (Z.of_nat rows) (Z.of_nat cols) (Z.of_nat c) (Z.of_nat r) heat)
    rows cols r c heat.
Proof.
  intros Hrect Hr Hc Hnd Hin Hnear.
  destruct (addHeat_cells g rows cols r c heat Hrect Hr Hc) as [_ Hget].
  exists cells. split; [exact Hnd|]. split; [reflexivity|]. split; [|split].
  - intros i j. split; [apply Hin|].
    intros (Hi & Hj & Hn). apply Hnear; assumption.
  - intros i j H. destruct (Hin i j H) as (Hi & Hj & Hn).
    rewrite (Hget i j Hi Hj), Hn. reflexivity.
  - intros i j Hi Hj Hnot. rewrite (Hget i j Hi Hj).
    destruct (near r c i j) eqn:Hn; [|reflexivity].
    exfalso. apply Hnot. apply Hnear; assumption.
Qed.

Ltac distinct_cells :=
  repeat (constructor;
          [simpl; intros Hdup;
           repeat (destruct Hdup as [Hdup|Hdup];
                   [injection Hdup; intros; lia|]); exact Hdup|]);
  constructor.

Ltac listed_cells :=
  let H := fresh "Hcell" in
  simpl; intros ? ? H;
  repeat (destruct H as [H|H];
          [injection H; intros; subst;
           repeat split; try lia; apply near_true; lia|]);
  contradiction.

Ltac neighbourhood_cells :=
  let H := fresh "Hnear" in
  intros ? ? ? ? H; apply near_true in H; simpl;
  destruct H as [H|[H|[H|[H|H]]]]; destruct H; subst;
  try (exfalso; lia);
  repeat first [left; f_equal; lia | right]; lia.

Lemma addHeat_interior (g : Grid) (rows cols r c : nat) (heat : R) :
  rectangular g rows cols -> 0 < r -> r + 1 < rows -> 0 < c -> c + 1 < cols ->
  raisesNear 5 g
    (addHeat g (Z.of_nat rows) (Z.of_nat cols) (Z.of_nat c) (Z.of_nat r) heat)
    rows cols r c heat.
Proof.
  intros Hrect Hr0 Hr1 Hc0 Hc1.
  apply (addHeat_raises g rows cols r c heat
           [(r, c); (r, c - 1); (r, c + 1); (r - 1, c); (r + 1, c)]);
    try assumption; try lia.
  - distinct_cells.
  - listed_cells.
  - neighbourhood_cells.
Qed.

Lemma addHeat_corner (g : Grid) (rows cols r c : nat) (heat : R) :
  rectangular g rows cols -> 2 <= rows -> 2 <= cols ->
  r = 0 \/ r + 1 = rows -> c = 0 \/ c + 1 = cols ->
  raisesNear 3 g
    (addHeat g (Z.of_nat rows) (Z.of_nat cols) (Z.of_nat c) (Z.of_nat r) heat)
    rows cols r c heat.
Proof.
  intros Hrect Hrows Hcols [Hr|Hr] [Hc|Hc].
  - apply (addHeat_raises g rows cols r c heat [(r, c); (r, c + 1); (r + 1, c)]);
      try assumption; try lia.
    + distinct_cells.
    + listed_cells.
    + neighbourhood_cells.
  - apply (addHeat_raises g rows cols r c heat [(r, c); (r, c - 1); (r + 1, c)]);
      try assumption; try lia.
    + distinct_cells.
    + listed_cells.
    + neighbourhood_cells.
  - apply (addHeat_raises g rows cols r c heat [(r, c); (r, c + 1); (r - 1, c)]);
      try assumption; try lia.
    + distinct_cells.
    + listed_cells.
    + neighbourhood_cells.
  - apply (addHeat_raises g rows cols r c heat [(r, c); (r, c - 1); (r - 1, c)]);
      try assumption; try lia.
    + distinct_cells.
    + listed_cells.
    + neighbourhood_cells.
Qed.

Lemma addHeat_outside (g : Grid) (rows cols gridX gridY : Z) (heat : R) :
  (gridX < 0 \/ cols <= gridX \/ gridY < 0 \/ rows <= gridY)%Z ->
  addHeat g rows cols gridX gridY heat = g.
Proof.
  intros H. unfold addHeat.
  replace ((gridX >=? 0) && (gridX <? cols) && (gridY >=? 0) && (gridY <? rows))%Z
    with false by lia.
  reflexivity.
Qed.

(** For a non-zero amount the number of raised cells is determined. *)
Lemma raisesExactly_unique (n m : nat) (g g' : Grid) (rows cols : nat) (amount : R) :
  amount <> 0%R ->
  raisesExactly n g g' rows cols amount -> raisesExactly m g g' rows cols amount ->
  n = m.
Proof.
  assert (Hincl : forall l1 l2 : list (nat * nat),
            amount <> 0%R ->
            (forall i j, In (i, j) l1 -> i < rows /\ j < cols) ->
            (forall i j, In (i, j) l1 -> get g' i j = (get g i j + amount)%R) ->
            (forall i j, i < rows -> j < cols -> ~ In (i, j) l2 ->
                         get g' i j = get g i j) ->
            incl l1 l2).
  { intros l1 l2 Hne Hin Hup Hsame [i j] Hij.
    destruct (in_dec (fun p q : nat * nat =>
                        ltac:(decide equality; apply Nat.eq_dec) : {p = q} + {p <> q})
                (i, j) l2) as [Hyes|Hno]; [exact Hyes|].
    exfalso. destruct (Hin i j Hij) as [Hi Hj].
    pose proof (Hup i j Hij) as H1. pose proof (Hsame i j Hi Hj Hno) as H2. lra. }
  intros Hne (l1 & Hnd1 & Hlen1 & Hin1 & Hup1 & Hsame1)
         (l2 & Hnd2 & Hlen2 & Hin2 & Hup2 & Hsame2).
  pose proof (NoDup_incl_length Hnd1 (Hincl l1 l2 Hne Hin1 Hup1 Hsame2)).
  pose proof (NoDup_incl_length Hnd2 (Hincl l2 l1 Hne Hin2 Hup2 Hsame1)).
  lia.
Qed.

Lemma addHeat_1x2 : addHeat [[0%R; 0%R]] 1 2 0 0 1%R = [[1%R; 1%R]].
Proof.
  cbv -[Rplus IZR]. rewrite Rplus_0_l. reflexivity.
Qed.

(** C5, as stated, fails at a corner of a grid that has a single row:
    [addHeat] on the 1x2 grid [[0, 0]] at row 0, column 0 with heat [1]
    gives [[1, 1]]; it raises two cells, the corner and its right
    neighbour, not three. *)
Lemma addHeat_corner_counterexample :
  addHeat [[0%R; 0%R]] 1 2 0 0 1%R = [[1%R; 1%R]] /\
  raisesExactly 2 [[0%R; 0%R]] (addHeat [[0%R; 0%R]] 1 2 0 0 1%R) 1 2 1%R /\
  ~ raisesExactly 3 [[0%R; 0%R]] (addHeat [[0%R; 0%R]] 1 2 0 0 1%R) 1 2 1%R.
Proof.
  assert (Htwo : raisesExactly 2 [[0%R; 0%R]] [[1%R; 1%R]] 1 2 1%R).
  { exists [(0, 0); (0, 1)]. split; [distinct_cells|]. split; [reflexivity|].
    split; [|split].
    - intros i j [H|[H|[]]]; injection H as <- <-; lia.
    - intros i j [H|[H|[]]]; injection H as <- <-; cbn [get nth]; lra.
    - intros i j Hi Hj Hnot. exfalso. apply Hnot.
      assert (i = 0) by lia. assert (j = 0 \/ j = 1) as [->| ->] by lia; subst i.
      + left. reflexivity.
      + right. left. reflexivity. }
  split; [exact addHeat_1x2|]. rewrite addHeat_1x2. split; [exact Htwo|].
  intros Hthree.
  assert (H : 2 = 3)
    by (apply (raisesExactly_unique 2 3 [[0%R; 0%R]] [[1%R; 1%R]] 1 2 1%R);
        [lra|exact Htwo|exact Hthree]).
  discriminate H.
Qed.

(** C5 (amended): on a grid of [rows] by [cols] cells, [addHeat] at row
    [gridY] and column [gridX] with heat [heat]
    - at an interior cell raises exactly 5 cells, the cell and its four
      cardinal neighbours, by [heat] each and leaves every other cell
      unchanged;
    - at a corner cell of a grid with at least two rows and two columns
      raises exactly 3 cells, the cell and its two cardinal neighbours in
      the grid, by [heat] each and leaves every other cell unchanged;
    - at a position outside the grid returns the grid unchanged. *)
Theorem addHeat_frame (g : Grid) (rows cols : nat) (gridX gridY : Z) (heat : R) :
  rectangular g rows cols ->
  let g' := addHeat g (Z.of_nat rows) (Z.of_nat cols) gridX gridY heat in
  ((0 < gridY < Z.of_nat rows - 1)%Z -> (0 < gridX < Z.of_nat cols - 1)%Z ->
   raisesNear 5 g g' rows cols (Z.to_nat gridY) (Z.to_nat gridX) heat) /\
  (2 <= rows -> 2 <= cols ->
   (gridY = 0 \/ gridY = Z.of_nat rows - 1)%Z ->
   (gridX = 0 \/ gridX = Z.of_nat cols - 1)%Z ->
   raisesNear 3 g g' rows cols (Z.to_nat gridY) (Z.to_nat gridX) heat) /\
  ((gridX < 0 \/ Z.of_nat cols <= gridX \/ gridY < 0 \/ Z.of_nat rows <= gridY)%Z ->
   g' = g).
Proof.
  intros Hrect g'. unfold g'. split; [|split].
  - intros Hy Hx.
    rewrite <- (Z2Nat.id gridX) at 1 by lia. rewrite <- (Z2Nat.id gridY) at 1 by lia.
    apply addHeat_interior; try assumption; lia.
  - intros Hrows Hcols Hy Hx.
    rewrite <- (Z2Nat.id gridX) at 1 by lia. rewrite <- (Z2Nat.id gridY) at 1 by lia.
    apply addHeat_corner; try assumption; lia.
  - apply addHeat_outside.
Qed.

Lemma addHeat_frame_witness :
  rectangular (uniform 3 3 0%R) 3 3 /\
  raisesNear 5 (uniform 3 3 0%R) (addHeat (uniform 3 3 0%R) 3 3 1 1 8%R) 3 3 1 1 8%R /\
  raisesNear 3 (uniform 3 3 0%R) (addHeat (uniform 3 3 0%R) 3 3 2 0 8%R) 3 3 0 2 8%R /\
  addHeat (uniform 3 3 0%R) 3 3 3 (-1) 8%R = uniform 3 3 0%R.
Proof.
  split; [apply rectangular_uniform|]. split; [|split].
  - apply (addHeat_frame (uniform 3 3 0%R) 3 3 1 1 8%R);
      [apply rectangular_uniform|lia|lia].
  - apply (addHeat_frame (uniform 3 3 0%R) 3 3 2 0 8%R);
      [apply rectangular_uniform|lia|lia|lia|lia].
  - apply (addHeat_frame (uniform 3 3 0%R) 3 3 3 (-1) 8%R);
      [apply rectangular_uniform|lia].
Defined.

(** ** Rendering: which pixels are painted *)

Lemma for_loop_preserves {S : Type} (P : S -> Prop) (lo hi : nat)
  (body : nat -> S -> S) (s : S) :
  (forall i t, lo <= i < hi -> P t -> P (body i t)) ->
  P s -> P (for_loop lo hi body s).
Proof.
  intros Hbody Hs. destruct (Nat.le_gt_cases lo hi) as [Hle|Hgt].
  - apply (for_loop_inv (fun _ t => P t)); assumption.
  - rewrite for_loop_empty by lia. exact Hs.
Qed.

(** If every iteration keeps [I] and keeps [Q] once it holds, and
    iteration [i0] makes [Q] true, then [Q] holds after the loop. *)
Lemma for_loop_establish {S : Type} (I Q : S -> Prop) (lo hi : nat)
  (body : nat -> S -> S) (i0 : nat) (s : S) :
  lo <= i0 < hi ->
  (forall i t, lo <= i < hi -> I t -> I (body i t)) ->
  (forall i t, lo <= i < hi -> I t -> Q t -> Q (body i t)) ->
  (forall t, I t -> Q (body i0 t)) ->
  I s -> Q (for_loop lo hi body s).
Proof.
  intros Hi0 HI HQ Hest Hs.
  assert (H : I (for_loop lo hi body s) /\ (i0 < hi -> Q (for_loop lo hi body s))).
  { apply (for_loop_inv (fun k t => I t /\ (i0 < k -> Q t))); [lia| |].
    - split; [exact Hs|lia].
    - intros i t Hi [HIt HQt]. split; [apply HI; assumption|].
      intros Hlt. destruct (Nat.eq_dec i i0) as [->|Hne].
      + apply Hest. exact HIt.
      + apply HQ; try assumption. apply HQt. lia. }
  apply H. lia.
Qed.

Lemma length_writePixel (canvasSizeX : nat) (heat : R) (x y : nat) (data : ImageData) :
  length (writePixel canvasSizeX heat x y data) = length data.
Proof. unfold writePixel. rewrite !length_update. reflexivity. Qed.

Lemma painted_writePixel (canvasSizeX : nat) (heat : R) (x y : nat) (data : ImageData) :
  y * canvasSizeX * 4 + x * 4 + 3 < length data ->
  painted (writePixel canvasSizeX heat x y data) canvasSizeX x y heat.
Proof.
  intros Hlen. unfold painted, channel, writePixel.
  set (r := y * canvasSizeX * 4 + x * 4) in *.
  repeat split.
  - rewrite !nth_update_neq by lia. rewrite Nat.add_0_r.
    apply nth_update_eq. lia.
  - rewrite !nth_update_neq by lia.
    apply nth_update_eq. rewrite !length_update. lia.
  - rewrite !nth_update_neq by lia.
    apply nth_update_eq. rewrite !length_update. lia.
  - apply nth_update_eq. rewrite !length_update. lia.
Qed.

Lemma pixel_index_distinct (canvasSizeX x y x' y' k k' : nat) :
  x < canvasSizeX -> x' < canvasSizeX -> (x, y) <> (x', y') -> k < 4 -> k' < 4 ->
  y' * canvasSizeX * 4 + x' * 4 + k' <> y * canvasSizeX * 4 + x * 4 + k.
Proof.
  intros Hx Hx' Hne Hk Hk'.
  destruct (Nat.lt_trichotomy y y') as [Hlt|[Heq|Hgt]].
  - assert ((y + 1) * canvasSizeX <= y' * canvasSizeX)
      by (apply Nat.mul_le_mono_r; lia). lia.
  - subst y'. assert (x <> x') by congruence. lia.
  - assert ((y' + 1) * canvasSizeX <= y * canvasSizeX)
      by (apply Nat.mul_le_mono_r; lia). lia.
Qed.

Lemma channel_writePixel_other (canvasSizeX : nat) (heat : R)
  (x y x' y' k : nat) (data : ImageData) :
  x < canvasSizeX -> x' < canvasSizeX -> (x, y) <> (x', y') -> k < 4 ->
  channel (writePixel canvasSizeX heat x' y' data) canvasSizeX x y k
  = channel data canvasSizeX x y k.
Proof.
  intros Hx Hx' Hne Hk. unfold channel, writePixel.
  pose proof (pixel_index_distinct canvasSizeX x y x' y' k 0 Hx Hx' Hne Hk) as H0.
  pose proof (pixel_index_distinct canvasSizeX x y x' y' k 1 Hx Hx' Hne Hk) as H1.
  pose proof (pixel_index_distinct canvasSizeX x y x' y' k 2 Hx Hx' Hne Hk) as H2.
  pose proof (pixel_index_distinct canvasSizeX x y x' y' k 3 Hx Hx' Hne Hk) as H3.
  rewrite !nth_update_neq by lia. reflexivity.
Qed.

Lemma painted_writePixel_other (canvasSizeX : nat) (heat t : R)
  (x y x' y' : nat) (data : ImageData) :
  x < canvasSizeX -> x' < canvasSizeX -> (x, y) <> (x', y') ->
  painted data canvasSizeX x y t ->
  painted (writePixel canvasSizeX heat x' y' data) canvasSizeX x y t.
Proof.
  intros Hx Hx' Hne (H0 & H1 & H2 & H3). unfold painted.
  rewrite !(channel_writePixel_other canvasSizeX heat x y x' y') by (assumption || lia).
  repeat split; assumption.
Qed.

Section FullCells.
Variables (canvasSizeX fullCellsX fullCellsY scale : nat) (heatGrid : Grid).

Section Preserve.
Variable P : ImageData -> Prop.
Hypothesis Hwrite : forall row col x y data,
  inCell fullCellsX fullCellsY scale row col x y -> P data ->
  P (writePixel canvasSizeX (get heatGrid row col) x y data).

Lemma drawFullCells_preserves (data : ImageData) :
  P data -> P (drawFullCells canvasSizeX fullCellsX fullCellsY scale heatGrid data).
Proof.
  unfold drawFullCells.
  apply for_loop_preserves. intros row d1 Hrow.
  apply for_loop_preserves. intros col d2 Hcol.
  apply for_loop_preserves. intros y d3 Hy.
  apply for_loop_preserves. intros x d4 Hx.
  apply Hwrite. unfold inCell. lia.
Qed.
End Preserve.

Section Establish.
Variables (I Q : ImageData -> Prop) (x0 y0 : nat).
Hypothesis HI : forall row col x y data,
  inCell fullCellsX fullCellsY scale row col x y -> I data ->
  I (writePixel canvasSizeX (get heatGrid row col) x y data).
Hypothesis HQ : forall row col x y data,
  inCell fullCellsX fullCellsY scale row col x y -> I data -> Q data ->
  Q (writePixel canvasSizeX (get heatGrid row col) x y data).
Hypothesis Hest : forall data,
  I data ->
  Q (writePixel canvasSizeX (get heatGrid (y0 / scale) (x0 / scale)) x0 y0 data).
Hypothesis Hscale : 1 <= scale.
Hypothesis Hx0 : x0 < fullCellsX * scale.
Hypothesis Hy0 : y0 < fullCellsY * scale.

Lemma drawFullCells_establishes (data : ImageData) :
  I data -> Q (drawFullCells canvasSizeX fullCellsX fullCellsY scale heatGrid data).
Proof.
  pose proof (Nat.div_mod_eq x0 scale) as Hdx.
  pose proof (Nat.mod_upper_bound x0 scale ltac:(lia)) as Hmx.
  pose proof (Nat.div_mod_eq y0 scale) as Hdy.
  pose proof (Nat.mod_upper_bound y0 scale ltac:(lia)) as Hmy.
  assert (Hrow0 : y0 / scale < fullCellsY) by (apply Nat.Div0.div_lt_upper_bound; lia).
  assert (Hcol0 : x0 / scale < fullCellsX) by (apply Nat.Div0.div_lt_upper_bound; lia).
  assert (HIQ : forall row col x y d,
            inCell fullCellsX fullCellsY scale row col x y -> I d /\ Q d ->
            I (writePixel canvasSizeX (get heatGrid row col) x y d) /\
            Q (writePixel canvasSizeX (get heatGrid row col) x y d)).
  { intros row col x y d Hin [Hi Hq]. split; [apply HI|apply HQ]; assumption. }
  unfold drawFullCells.
  apply (for_loop_establish I Q) with (i0 := y0 / scale); [lia| | |].
  - intros row d1 Hrow.
    apply for_loop_preserves. intros col d2 Hcol.
    apply for_loop_preserves. intros y d3 Hy.
    apply for_loop_preserves. intros x d4 Hx.
    apply HI. unfold inCell. lia.
  - intros row d1 Hrow Hi1 Hq1.
    apply (for_loop_preserves (fun d => I d /\ Q d)); [|split; assumption].
    intros col d2 Hcol.
    apply (for_loop_preserves (fun d => I d /\ Q d)). intros y d3 Hy.
    apply (for_loop_preserves (fun d => I d /\ Q d)). intros x d4 Hx.
    apply HIQ. unfold inCell. lia.
  - intros d1.
    apply (for_loop_establish I Q) with (i0 := x0 / scale); [lia| | |].
    + intros col d2 Hcol.
      apply for_loop_preserves. intros y d3 Hy.
      apply for_loop_preserves. intros x d4 Hx.
      apply HI. unfold inCell. lia.
    + intros col d2 Hcol Hi2 Hq2.
      apply (for_loop_preserves (fun d => I d /\ Q d)); [|split; assumption].
      intros y d3 Hy.
      apply (for_loop_preserves (fun d => I d /\ Q d)). intros x d4 Hx.
      apply HIQ. unfold inCell. lia.
    + intros d2.
      apply (for_loop_establish I Q) with (i0 := y0); [nia| | |].
      * intros y d3 Hy.
        apply for_loop_preserves. intros x d4 Hx.
        apply HI. unfold inCell. lia.
      * intros y d3 Hy Hi3 Hq3.
        apply (for_loop_preserves (fun d => I d /\ Q d)); [|split; assumption].
        intros x d4 Hx. apply HIQ. unfold inCell. lia.
      * intros d3.
        apply (for_loop_establish I Q) with (i0 := x0); [nia| | |].
        -- intros x d4 Hx. apply HI. unfold inCell. lia.
        -- intros x d4 Hx. apply HQ. unfold inCell. lia.
        -- exact Hest.
Qed.
End Establish.
End FullCells.

Lemma inCell_bounds (fullCellsX fullCellsY scale row col x y : nat) :
  inCell fullCellsX fullCellsY scale row col x y ->
  x < fullCellsX * scale /\ y < fullCellsY * scale.
Proof. unfold inCell. intros (Hr & Hc & Hy & Hx). split; nia. Qed.

Lemma inCell_cell (fullCellsX fullCellsY scale row col x y : nat) :
  inCell fullCellsX fullCellsY scale row col x y ->
  row = y / scale /\ col = x / scale.
Proof.
  unfold inCell. intros (Hr & Hc & Hy & Hx). split.
  - apply (Nat.div_unique y scale row (y - row * scale)); lia.
  - apply (Nat.div_unique x scale col (x - col * scale)); lia.
Qed.

Lemma drawFullCells_length (canvasSizeX fullCellsX fullCellsY scale : nat)
  (heatGrid : Grid) (data : ImageData) :
  length (drawFullCells canvasSizeX fullCellsX fullCellsY scale heatGrid data)
  = length data.
Proof.
  apply (drawFullCells_preserves canvasSizeX fullCellsX fullCellsY scale heatGrid
           (fun d => length d = length data)); [|reflexivity].
  intros row col x y d _ Hd. rewrite length_writePixel. exact Hd.
Qed.

(** The full-cells nest paints every pixel of the blocks it visits with the
    colour of the grid cell the pixel lies in. *)
Lemma drawFullCells_paints (canvasSizeX fullCellsX fullCellsY scale : nat)
  (heatGrid : Grid) (data : ImageData) (x y : nat) :
  1 <= scale -> fullCellsX * scale <= canvasSizeX ->
  x < fullCellsX * scale -> y < fullCellsY * scale ->
  y * canvasSizeX * 4 + x * 4 + 3 < length data ->
  painted (drawFullCells canvasSizeX fullCellsX fullCellsY scale heatGrid data)
    canvasSizeX x y (get heatGrid (y / scale) (x / scale)).
Proof.
  intros Hs HW Hx Hy Hlen.
  apply (drawFullCells_establishes canvasSizeX fullCellsX fullCellsY scale heatGrid
           (fun d => length d = length data)
           (fun d => painted d canvasSizeX x y (get heatGrid (y / scale) (x / scale)))
           x y); try assumption; try reflexivity.
  - intros row col x' y' d _ Hd. rewrite length_writePixel. exact Hd.
  - intros row col x' y' d Hin Hd Hp.
    destruct (inCell_bounds _ _ _ _ _ _ _ Hin) as [Hx' Hy'].
    destruct (inCell_cell _ _ _ _ _ _ _ Hin) as [Hrow Hcol].
    destruct (Nat.eq_dec x' x) as [->|Hnx]; [destruct (Nat.eq_dec y' y) as [->|Hny]|].
    + subst row col. apply painted_writePixel. rewrite Hd. exact Hlen.
    + apply painted_writePixel_other; try lia; [congruence|exact Hp].
    + apply painted_writePixel_other; try lia; [congruence|exact Hp].
  - intros d Hd. apply painted_writePixel. rewrite Hd. exact Hlen.
Qed.

(** It leaves every pixel outside those blocks as it was. *)
Lemma drawFullCells_frame (canvasSizeX fullCellsX fullCellsY scale : nat)
  (heatGrid : Grid) (data : ImageData) (x y k : nat) :
  fullCellsX * scale <= canvasSizeX -> x < canvasSizeX ->
  fullCellsX * scale <= x \/ fullCellsY * scale <= y -> k < 4 ->
  channel (drawFullCells canvasSizeX fullCellsX fullCellsY scale heatGrid data)
    canvasSizeX x y k
  = channel data canvasSizeX x y k.
Proof.
  intros HW Hx Hout Hk.
  apply (drawFullCells_preserves canvasSizeX fullCellsX fullCellsY scale heatGrid
           (fun d => channel d canvasSizeX x y k = channel data canvasSizeX x y k));
    [|reflexivity].
  intros row col x' y' d Hin Hd.
  destruct (inCell_bounds _ _ _ _ _ _ _ Hin) as [Hx' Hy'].
  rewrite channel_writePixel_other; try lia; [exact Hd|].
  intros Heq. injection Heq as -> ->. lia.
Qed.

Lemma full_cells_fit (canvasSize scale : nat) : canvasSize / scale * scale <= canvasSize.
Proof.
  destruct scale as [|s]; [simpl; lia|].
  pose proof (Nat.div_mod_eq canvasSize (S s)). lia.
Qed.

(** With at least one full cell along an axis the start of the remainder
    nest along that axis, [fullCells*scale], is not below the number of
    grid cells: the nest does nothing. *)
Lemma remainder_start (canvasSize scale : nat) :
  1 <= scale -> 1 <= canvasSize / scale ->
  totalCells canvasSize scale <= canvasSize / scale * scale.
Proof.
  intros Hs Hfull. unfold totalCells.
  pose proof (Nat.div_mod_eq canvasSize scale) as Hdm.
  destruct (Nat.eqb_spec (canvasSize mod scale) 0) as [H0|Hn0]; [nia|].
  assert (2 <= scale).
  { destruct (Nat.eq_dec scale 1) as [->|]; [|lia].
    rewrite Nat.mod_1_r in Hn0. lia. }
  nia.
Qed.

Lemma drawRemainder_skip (canvasSizeX canvasSizeY scale : nat)
  (heatGrid : Grid) (data : ImageData) :
  1 <= scale -> 1 <= canvasSizeX / scale \/ 1 <= canvasSizeY / scale ->
  drawRemainder canvasSizeX canvasSizeY (canvasSizeX / scale) (canvasSizeY / scale)
    (totalCells canvasSizeX scale) (totalCells canvasSizeY scale) scale heatGrid data
  = data.
Proof.
  intros Hs [HX|HY]; unfold drawRemainder.
  - apply for_loop_fixed. intros row _.
    apply for_loop_empty. apply remainder_start; assumption.
  - apply for_loop_empty. apply remainder_start; assumption.
Qed.

(** What [drawHeatGrid] returns once both checks are passed. *)
Lemma drawHeatGrid_accepted (canvas : Canvas) (data data' : ImageData)
  (heatGrid : Grid) (scale : nat) :
  drawHeatGrid canvas data heatGrid scale = inr data' ->
  data' =
  drawRemainder (width canvas) (height canvas)
    (width canvas / scale) (height canvas / scale)
    (totalCells (width canvas) scale) (totalCells (height canvas) scale) scale heatGrid
    (drawFullCells (width canvas) (width canvas / scale) (height canvas / scale)
       scale heatGrid data).
Proof.
  unfold drawHeatGrid. destruct heatGrid as [|row0 rest]; [discriminate|].
  destruct ((width canvas <? length row0) || (height canvas <? length (row0 :: rest)));
    [discriminate|].
  destruct (Nat.eqb_spec (totalCells (width canvas) scale) (length row0)) as [HX|HX];
    [|discriminate].
  destruct (Nat.eqb_spec (totalCells (height canvas) scale) (length (row0 :: rest)))
    as [HY|HY]; [|discriminate].
  cbn [negb orb]. intros H. injection H as <-. rewrite HX, HY. reflexivity.
Qed.

(** The pixels of an accepted rendering, when the target holds at least
    one full block along some axis: the pixels of the full blocks carry the
    colour of their grid cell, all others keep the previous content of the
    buffer. *)
Lemma drawHeatGrid_pixels (canvas : Canvas) (data data' : ImageData)
  (heatGrid : Grid) (scale : nat) :
  1 <= scale ->
  1 <= width canvas / scale \/ 1 <= height canvas / scale ->
  drawHeatGrid canvas data heatGrid scale = inr data' ->
  (length data = width canvas * height canvas * 4 ->
   forall x y, x < width canvas / scale * scale -> y < height canvas / scale * scale ->
     painted data' (width canvas) x y (get heatGrid (y / scale) (x / scale))) /\
  (forall x y k, x < width canvas -> k < 4 ->
     width canvas / scale * scale <= x \/ height canvas / scale * scale <= y ->
     channel data' (width canvas) x y k = channel data (width canvas) x y k).
Proof.
  intros Hs Hfull Hdraw.
  rewrite (drawHeatGrid_accepted canvas data data' heatGrid scale Hdraw).
  rewrite drawRemainder_skip by assumption.
  pose proof (full_cells_fit (width canvas) scale) as HfX.
  pose proof (full_cells_fit (height canvas) scale) as HfY.
  split.
  - intros Hlen x y Hx Hy. apply drawFullCells_paints; try assumption.
    rewrite Hlen. nia.
  - intros x y k Hx Hk Hout. apply drawFullCells_frame; assumption.
Qed.

Lemma get_uniform (rows cols i j : nat) (t : R) :
  i < rows -> j < cols -> get (uniform rows cols t) i j = t.
Proof.
  intros Hi Hj. unfold get, uniform.
  rewrite nth_repeat_lt by assumption. apply nth_repeat_lt. assumption.
Qed.

Lemma totalCells_multiple (n scale : nat) :
  1 <= scale -> totalCells (n * scale) scale = n.
Proof.
  intros Hs. unfold totalCells.
  rewrite Nat.Div0.mod_mul, Nat.div_mul by lia. reflexivity.
Qed.

(** Where C2 holds: on a target that is a whole number of blocks wide and
    high, a uniform grid paints every pixel with the colour of [t]. *)
Lemma drawHeatGrid_uniform_whole_blocks (rows cols scale : nat) (t : R)
  (data : ImageData) :
  1 <= scale -> 1 <= rows -> 1 <= cols ->
  length data = cols * scale * (rows * scale) * 4 ->
  exists data',
    drawHeatGrid {| width := cols * scale; height := rows * scale |} data
      (uniform rows cols t) scale = inr data' /\
    forall x y, x < cols * scale -> y < rows * scale ->
      painted data' (cols * scale) x y t.
Proof.
  intros Hs Hr Hc Hlen.
  assert (Hdraw : exists data',
            drawHeatGrid {| width := cols * scale; height := rows * scale |} data
              (uniform rows cols t) scale = inr data').
  { unfold drawHeatGrid. destruct rows as [|rows']; [lia|].
    change (uniform (S rows') cols t)
      with (repeat t cols :: repeat (repeat t cols) rows').
    cbn [width height length]. rewrite !repeat_length.
    rewrite !totalCells_multiple by assumption.
    rewrite !Nat.eqb_refl.
    replace (cols * scale <? cols) with false by (symmetry; apply Nat.ltb_ge; nia).
    replace (S rows' * scale <? S rows') with false
      by (symmetry; apply Nat.ltb_ge; nia).
    eexists. reflexivity. }
  destruct Hdraw as [data' Hdraw]. exists data'. split; [exact Hdraw|].
  intros x y Hx Hy.
  destruct (drawHeatGrid_pixels {| width := cols * scale; height := rows * scale |}
              data data' (uniform rows cols t) scale Hs) as [Hpaint _];
    [cbn [width height]; rewrite !Nat.div_mul by lia; lia|exact Hdraw|].
  cbn [width height] in Hpaint. rewrite !Nat.div_mul in Hpaint by lia.
  specialize (Hpaint Hlen x y Hx Hy).
  rewrite get_uniform in Hpaint; [exact Hpaint| |];
    apply Nat.Div0.div_lt_upper_bound; lia.
Qed.

(** Where C2 fails, in general: whenever the target is accepted, holds a
    full block along some axis and is not a whole number of blocks wide,
    the pixels of the remainder column keep the previous content of the
    buffer; likewise for the remainder row. *)
Lemma drawHeatGrid_remainder_untouched (canvas : Canvas) (data data' : ImageData)
  (heatGrid : Grid) (scale x y k : nat) :
  1 <= scale ->
  1 <= width canvas / scale \/ 1 <= height canvas / scale ->
  drawHeatGrid canvas data heatGrid scale = inr data' ->
  x < width canvas -> k < 4 ->
  width canvas / scale * scale <= x \/ height canvas / scale * scale <= y ->
  channel data' (width canvas) x y k = channel data (width canvas) x y k.
Proof.
  intros Hs Hfull Hdraw Hx Hk Hout.
  destruct (drawHeatGrid_pixels canvas data data' heatGrid scale Hs Hfull Hdraw)
    as [_ Hframe].
  apply Hframe; assumption.
Qed.

(** C2, the behaviour of the code where the claim fails: a uniform 2x2
    grid on a 3x3 target at [scale = 2] passes the geometry check
    ([totalCells = 2]), the pixels of the full 2x2 block are painted, and
    the pixels of the remainder column and row keep what the buffer held
    before: pixel [(2,0)] still has alpha [0], not [255]. *)
Theorem draw_remainder_unpainted (t : R) :
  exists data,
    drawHeatGrid {| width := 3; height := 3 |} (repeat 0%R 36) (uniform 2 2 t) 2
    = inr data /\
    painted data 3 0 0 t /\ painted data 3 1 1 t /\
    channel data 3 2 0 0 = 0%R /\ channel data 3 2 0 3 = 0%R /\
    channel data 3 0 2 3 = 0%R /\ channel data 3 2 2 3 = 0%R /\
    ~ painted data 3 2 0 t.
Proof.
  eexists. split; [cbv -[Rmult IZR]; reflexivity|].
  unfold painted, channel. cbn [nth Nat.mul Nat.add].
  repeat split; try reflexivity.
  intros (_ & _ & _ & H). lra.
Qed.

(** ** The interval callback *)

Lemma intervalTick_released (x y : Q) (scale : nat) (heatMultiplier : R)
  (rows cols : Z) (heatGrid : Grid) :
  intervalTick false x y scale heatMultiplier rows cols heatGrid = heatGrid.
Proof. reflexivity. Qed.

(** While the button is held the callback injects eight times the
    multiplier at the cell under the pointer. *)
Lemma intervalTick_held (x y : Q) (scale : nat) (heatMultiplier : R)
  (rows cols : Z) (heatGrid : Grid) :
  intervalTick true x y scale heatMultiplier rows cols heatGrid
  = addHeat heatGrid rows cols
      (fst (canvasXYToGridXY x y scale)) (snd (canvasXYToGridXY x y scale))
      (heatMultiplier * 8)%R.
Proof. reflexivity. Qed.

(** A pointer left of or above the first pixel maps to a negative index,
    and the callback leaves the grid alone. *)
Lemma intervalTick_outside (scale : nat) (heatMultiplier : R)
  (rows cols : Z) (heatGrid : Grid) :
  1 <= scale ->
  intervalTick true 0 0 scale heatMultiplier rows cols heatGrid = heatGrid.
Proof.
  intros Hs. rewrite intervalTick_held.
  assert (Hpos : (0 < inject_Z (Z.of_nat scale))%Q) by (apply scale_positive; exact Hs).
  assert (Hx : (fst (canvasXYToGridXY 0 0 scale) < 0)%Z).
  { unfold canvasXYToGridXY. cbn [fst].
    assert (Hneg : ((0 - 1) / inject_Z (Z.of_nat scale) < 0)%Q).
    { apply Qlt_shift_div_r; [exact Hpos|]. reflexivity. }
    pose proof (Qfloor_le ((0 - 1) / inject_Z (Z.of_nat scale))) as Hle.
    assert (Hlt : (inject_Z (Qfloor ((0 - 1) / inject_Z (Z.of_nat scale)))
                   < inject_Z 0)%Q).
    { eapply Qle_lt_trans; [exact Hle|exact Hneg]. }
    rewrite <- Zlt_Qlt in Hlt. exact Hlt. }
  apply addHeat_outside. left. exact Hx.
Qed.

(** * Further properties of the program *)

(** ** Initialization *)

(** X1: with valid dimensions the "zeros" method returns a grid of [rows]
    rows and [cols] columns in which every cell is [0], whatever [beta] and
    [alpha] are. *)
Theorem initialize_zeros_grid (rows cols : Z) (beta alpha : R) :
  (1 <= rows <= 1080)%Z -> (1 <= cols <= 1920)%Z ->
  exists g, initializeHeatGrid rows cols zeros beta alpha = inr g /\
    rectangular g (Z.to_nat rows) (Z.to_nat cols) /\
    forall i j, i < Z.to_nat rows -> j < Z.to_nat cols -> get g i j = 0%R.
Proof.
  intros Hr Hc. exists (uniform (Z.to_nat rows) (Z.to_nat cols) 0%R).
  split; [apply initializeHeatGrid_zeros; assumption|].
  split; [apply rectangular_uniform|].
  intros i j _ _. apply get_uniform_zero.
Qed.

Lemma initialize_zeros_grid_witness :
  exists g, initializeHeatGrid 2 3 zeros 7%R 9%R = inr g /\
    rectangular g 2 3 /\
    forall i j, i < 2 -> j < 3 -> get g i j = 0%R.
Proof. apply (initialize_zeros_grid 2 3 7%R 9%R); lia. Defined.

(** X2: with valid dimensions and [beta = 0] the "exp" method returns the
    flat field: every cell holds [alpha]. *)
Theorem initialize_radial_flat (rows cols : Z) (alpha : R) :
  (1 <= rows <= 1080)%Z -> (1 <= cols <= 1920)%Z ->
  exists g, initializeHeatGrid rows cols exp_rbf 0%R alpha = inr g /\
    forall i j, i < Z.to_nat rows -> j < Z.to_nat cols -> get g i j = alpha.
Proof.
  intros Hr Hc.
  destruct (initializeHeatGrid_exp rows cols 0%R alpha Hr Hc)
    as (g & Heq & _ & Hcells).
  exists g. split; [exact Heq|].
  intros i j Hi Hj. rewrite Hcells by assumption.
  replace (- 0 * IZR (sqDist (cols / 2) (rows / 2) i j))%R with 0%R by lra.
  rewrite exp_0. apply Rmult_1_r.
Qed.

Lemma initialize_radial_flat_witness :
  exists g, initializeHeatGrid 2 3 exp_rbf 0%R 255%R = inr g /\
    forall i j, i < 2 -> j < 3 -> get g i j = 255%R.
Proof. apply (initialize_radial_flat 2 3 255%R); lia. Defined.

(** X3: the field of the "exp" method is symmetric about the centre cell,
    for every [beta] and [alpha]: two cells of the grid at the same squared
    distance from [(midY, midX)] hold the same value; so do a cell and its
    mirror image in the centre row, and a cell and its mirror image in the
    centre column. *)
Theorem initialize_radial_symmetric (rows cols : Z) (beta alpha : R) :
  (1 <= rows <= 1080)%Z -> (1 <= cols <= 1920)%Z ->
  let midX := (cols / 2)%Z in
  let midY := (rows / 2)%Z in
  exists g, initializeHeatGrid rows cols exp_rbf beta alpha = inr g /\
    (forall i j i' j',
       i < Z.to_nat rows -> j < Z.to_nat cols ->
       i' < Z.to_nat rows -> j' < Z.to_nat cols ->
       ((Z.of_nat i - midY) ^ 2 + (Z.of_nat j - midX) ^ 2
        = (Z.of_nat i' - midY) ^ 2 + (Z.of_nat j' - midX) ^ 2)%Z ->
       get g i j = get g i' j') /\
    (forall i i' j,
       i < Z.to_nat rows -> i' < Z.to_nat rows -> j < Z.to_nat cols ->
       (Z.of_nat i + Z.of_nat i' = 2 * midY)%Z -> get g i j = get g i' j) /\
    (forall i j j',
       i < Z.to_nat rows -> j < Z.to_nat cols -> j' < Z.to_nat cols ->
       (Z.of_nat j + Z.of_nat j' = 2 * midX)%Z -> get g i j = get g i j').
Proof.
  intros Hr Hc midX midY.
  destruct (initializeHeatGrid_exp rows cols beta alpha Hr Hc)
    as (g & Heq & _ & Hcells).
  assert (Hsame : forall i j i' j',
            i < Z.to_nat rows -> j < Z.to_nat cols ->
            i' < Z.to_nat rows -> j' < Z.to_nat cols ->
            sqDist midX midY i j = sqDist midX midY i' j' ->
            get g i j = get g i' j').
  { intros i j i' j' Hi Hj Hi' Hj' Hd. rewrite !Hcells by assumption.
    fold midX midY. rewrite Hd. reflexivity. }
  exists g. split; [exact Heq|]. split; [|split].
  - intros i j i' j' Hi Hj Hi' Hj' Hd. apply Hsame; assumption.
  - intros i i' j Hi Hi' Hj Hm. apply Hsame; try assumption.
    unfold sqDist.
    replace (Z.of_nat i' - midY)%Z with (- (Z.of_nat i - midY))%Z by lia.
    ring.
  - intros i j j' Hi Hj Hj' Hm. apply Hsame; try assumption.
    unfold sqDist.
    replace (Z.of_nat j' - midX)%Z with (- (Z.of_nat j - midX))%Z by lia.
    ring.
Qed.

Lemma initialize_radial_symmetric_witness :
  exists g, initializeHeatGrid 3 5 exp_rbf 1%R 255%R = inr g /\
    get g 0 1 = get g 2 3.
Proof.
  destruct (initialize_radial_symmetric 3 5 1%R 255%R) as (g & Heq & Hsame & _);
    [lia|lia|].
  exists g. split; [exact Heq|]. apply Hsame; try lia. reflexivity.
Defined.

(** ** Repeated diffusion steps *)

Lemma cellOrZero_within (g : Grid) (rows cols : nat) (M : R) (r c : Z) :
  (0 <= M)%R -> cellsWithin g rows cols 0 M ->
  (0 <= cellOrZero g rows cols r c <= M)%R.
Proof.
  intros HM Hg. unfold cellOrZero.
  destruct (Z.leb_spec 0 r), (Z.ltb_spec r (Z.of_nat rows)),
    (Z.leb_spec 0 c), (Z.ltb_spec c (Z.of_nat cols)); simpl; try lra.
  apply Hg; lia.
Qed.

Lemma cellOrZero_nonneg (g : Grid) (rows cols : nat) (r c : Z) :
  (forall i j, i < rows -> j < cols -> (0 <= get g i j)%R) ->
  (0 <= cellOrZero g rows cols r c)%R.
Proof.
  intros Hg. unfold cellOrZero.
  destruct (Z.leb_spec 0 r), (Z.ltb_spec r (Z.of_nat rows)),
    (Z.leb_spec 0 c), (Z.ltb_spec c (Z.of_nat cols)); simpl; try lra.
  apply Hg; lia.
Qed.

(** A grid that satisfies the equations of the in-place pass has no
    negative cell. *)
Lemma inPlace_nonneg (g g' : Grid) (rows cols : nat) (gamma : R) :
  (forall i j, i < rows -> j < cols ->
     get g' i j = inPlaceCell g g' rows cols gamma i j) ->
  forall i j, i < rows -> j < cols -> (0 <= get g' i j)%R.
Proof.
  intros Hcells i j Hi Hj. rewrite (Hcells i j Hi Hj).
  unfold inPlaceCell. apply stencil_nonneg.
Qed.

(** The maximum principle of one pass: for [0 <= gamma <= 1/4] no cell
    rises above a bound all cells respected before. *)
Lemma step_within (g : Grid) (rows cols : nat) (gamma M : R) :
  rectangular g rows cols -> 0 < rows ->
  (0 <= gamma <= 1 / 4)%R -> (0 <= M)%R ->
  cellsWithin g rows cols 0 M ->
  exists g', heatDissipationTimeStep g gamma = inr g' /\
    rectangular g' rows cols /\ cellsWithin g' rows cols 0 M.
Proof.
  intros Hrect Hpos Hgamma HM Hg.
  destruct (heatDissipationTimeStep_inPlace g rows cols gamma Hrect Hpos)
    as (g' & Heq & Hrect' & Hcells).
  exists g'. split; [exact Heq|]. split; [exact Hrect'|].
  pose proof (inPlace_nonneg g g' rows cols gamma Hcells) as Hnn.
  assert (Hup : forall i, i < rows -> forall j, j < cols -> (get g' i j <= M)%R).
  { intros i. induction i as [i IHi] using lt_wf_ind. intros Hi j.
    induction j as [j IHj] using lt_wf_ind. intros Hj.
    rewrite (Hcells i j Hi Hj). unfold inPlaceCell, stencil, rawStencil.
    assert (Ha : (0 <= cellOrZero g' rows cols (Z.of_nat i - 1) (Z.of_nat j) <= M)%R).
    { destruct i as [|i'].
      - rewrite cellOrZero_out by lia. lra.
      - replace (Z.of_nat (S i') - 1)%Z with (Z.of_nat i') by lia.
        rewrite cellOrZero_in by lia. split; [apply Hnn; lia|apply IHi; lia]. }
    assert (Hc : (0 <= cellOrZero g' rows cols (Z.of_nat i) (Z.of_nat j - 1) <= M)%R).
    { destruct j as [|j'].
      - rewrite cellOrZero_out by lia. lra.
      - replace (Z.of_nat (S j') - 1)%Z with (Z.of_nat j') by lia.
        rewrite cellOrZero_in by lia. split; [apply Hnn; lia|apply IHj; lia]. }
    pose proof (cellOrZero_within g rows cols M (Z.of_nat i + 1) (Z.of_nat j) HM Hg) as Hb.
    pose proof (cellOrZero_within g rows cols M (Z.of_nat i) (Z.of_nat j + 1) HM Hg) as Hd.
    pose proof (Hg i j Hi Hj) as He.
    apply Rmax_lub; [exact HM|]. nra. }
  intros i j Hi Hj. split; [apply Hnn; assumption|apply Hup; assumption].
Qed.

Lemma steps_S (n : nat) (g g' : Grid) (gamma : R) :
  heatDissipationTimeStep g gamma = inr g' ->
  steps (S n) g gamma = steps n g' gamma.
Proof. intros H. simpl. rewrite H. reflexivity. Qed.

(** X4: any number of diffusion steps on a grid with at least one row
    returns a grid of the same shape, for every [gamma]; after one step or
    more no cell is negative. *)
Theorem steps_keep_shape (n : nat) (g : Grid) (rows cols : nat) (gamma : R) :
  rectangular g rows cols -> 0 < rows ->
  exists g', steps n g gamma = inr g' /\
    rectangular g' rows cols /\
    (1 <= n -> forall i j, i < rows -> j < cols -> (0 <= get g' i j)%R).
Proof.
  intros Hrect Hpos. revert g Hrect.
  induction n as [|n IH]; intros g Hrect.
  - exists g. split; [reflexivity|]. split; [exact Hrect|]. lia.
  - destruct (heatDissipationTimeStep_inPlace g rows cols gamma Hrect Hpos)
      as (g1 & Heq & Hrect1 & Hcells).
    destruct (IH g1 Hrect1) as (g' & Hsteps & Hrect' & Hnn).
    exists g'. rewrite (steps_S n g g1 gamma Heq).
    split; [exact Hsteps|]. split; [exact Hrect'|].
    intros _. destruct n as [|n'].
    + simpl in Hsteps. injection Hsteps as <-.
      apply (inPlace_nonneg g g1 rows cols gamma Hcells).
    + apply Hnn. lia.
Qed.

Lemma steps_keep_shape_witness :
  exists g', steps 3 [[1%R; 1%R]] 2%R = inr g' /\
    rectangular g' 1 2 /\
    forall i j, i < 1 -> j < 2 -> (0 <= get g' i j)%R.
Proof.
  destruct (steps_keep_shape 3 [[1%R; 1%R]] 1 2 2%R) as (g' & Heq & Hrect & Hnn);
    [apply rectangular_1x2|lia|].
  exists g'. split; [exact Heq|]. split; [exact Hrect|]. apply Hnn. lia.
Defined.

(** X5: the maximum principle.  For [0 <= gamma <= 1/4], if every cell of
    a grid lies in [[0, M]], then after any number of diffusion steps every
    cell still lies in [[0, M]]: the pass never creates a new maximum. *)
Theorem steps_bounded (n : nat) (g : Grid) (rows cols : nat) (gamma M : R) :
  rectangular g rows cols -> 0 < rows ->
  (0 <= gamma <= 1 / 4)%R -> (0 <= M)%R ->
  cellsWithin g rows cols 0 M ->
  exists g', steps n g gamma = inr g' /\
    rectangular g' rows cols /\
    forall i j, i < rows -> j < cols -> (0 <= get g' i j <= M)%R.
Proof.
  intros Hrect Hpos Hgamma HM. revert g Hrect.
  induction n as [|n IH]; intros g Hrect Hg.
  - exists g. split; [reflexivity|]. split; [exact Hrect|exact Hg].
  - destruct (step_within g rows cols gamma M Hrect Hpos Hgamma HM Hg)
      as (g1 & Heq & Hrect1 & Hg1).
    destruct (IH g1 Hrect1 Hg1) as (g' & Hsteps & Hrect' & Hg').
    exists g'. rewrite (steps_S n g g1 gamma Heq).
    split; [exact Hsteps|]. split; [exact Hrect'|exact Hg'].
Qed.

Lemma steps_bounded_witness :
  exists g', steps 5 [[1%R; 3%R]] (1 / 4)%R = inr g' /\
    rectangular g' 1 2 /\
    forall i j, i < 1 -> j < 2 -> (0 <= get g' i j <= 3)%R.
Proof.
  apply (steps_bounded 5 [[1%R; 3%R]] 1 2 (1 / 4)%R 3%R).
  - apply rectangular_1x2.
  - lia.
  - lra.
  - lra.
  - intros [|i] [|[|j]] Hi Hj; try lia; cbn [get nth]; lra.
Defined.

(** X6: for [gamma <= 0] one diffusion step of a grid without negative
    cells leaves [0] in every cell. *)
Theorem step_nonpositive_gamma (g : Grid) (rows cols : nat) (gamma : R) :
  rectangular g rows cols -> 0 < rows ->
  (gamma <= 0)%R ->
  (forall i j, i < rows -> j < cols -> (0 <= get g i j)%R) ->
  exists g', heatDissipationTimeStep g gamma = inr g' /\
    forall i j, i < rows -> j < cols -> get g' i j = 0%R.
Proof.
  intros Hrect Hpos Hgamma Hg.
  destruct (heatDissipationTimeStep_inPlace g rows cols gamma Hrect Hpos)
    as (g' & Heq & _ & Hcells).
  exists g'. split; [exact Heq|].
  pose proof (inPlace_nonneg g g' rows cols gamma Hcells) as Hnn.
  intros i j Hi Hj. rewrite (Hcells i j Hi Hj).
  unfold inPlaceCell, stencil, rawStencil.
  pose proof (cellOrZero_nonneg g' rows cols (Z.of_nat i - 1) (Z.of_nat j) Hnn) as Ha.
  pose proof (cellOrZero_nonneg g rows cols (Z.of_nat i + 1) (Z.of_nat j) Hg) as Hb.
  pose proof (cellOrZero_nonneg g' rows cols (Z.of_nat i) (Z.of_nat j - 1) Hnn) as Hc.
  pose proof (cellOrZero_nonneg g rows cols (Z.of_nat i) (Z.of_nat j + 1) Hg) as Hd.
  pose proof (Hg i j Hi Hj) as He.
  apply Rmax_0_neg. nra.
Qed.

Lemma step_nonpositive_gamma_witness :
  exists g', heatDissipationTimeStep [[2%R; 5%R]] (-1)%R = inr g' /\
    forall i j, i < 1 -> j < 2 -> get g' i j = 0%R.
Proof.
  apply (step_nonpositive_gamma [[2%R; 5%R]] 1 2 (-1)%R).
  - apply rectangular_1x2.
  - lia.
  - lra.
  - intros [|i] [|[|j]] Hi Hj; try lia; cbn [get nth]; lra.
Defined.

(** ** Rendering *)

(** X7: [totalCells] is the ceiling of [canvasSize / scale]: for a scale
    [>= 1] it is the least number of blocks of [scale] pixels that cover
    [canvasSize] pixels. *)
Theorem totalCells_least_cover (canvasSize scale n : nat) :
  1 <= scale ->
  (canvasSize <= n * scale <-> totalCells canvasSize scale <= n).
Proof.
  intros Hs. unfold totalCells.
  pose proof (Nat.div_mod_eq canvasSize scale) as Hdm.
  pose proof (Nat.mod_upper_bound canvasSize scale ltac:(lia)) as Hm.
  destruct (Nat.eqb_spec (canvasSize mod scale) 0) as [H0|Hn0]; split; intros H; nia.
Qed.

Lemma totalCells_least_cover_witness :
  (10 <= 3 * 4 <-> totalCells 10 4 <= 3) /\ (10 <= 2 * 4 <-> totalCells 10 4 <= 2).
Proof.
  split; [apply (totalCells_least_cover 10 4 3)|apply (totalCells_least_cover 10 4 2)];
    lia.
Defined.

Lemma drawRemainder_preserves (P : ImageData -> Prop)
  (canvasSizeX canvasSizeY fullCellsX fullCellsY gridSizeX gridSizeY scale : nat)
  (heatGrid : Grid) (data : ImageData) :
  (forall row col x y d, x < canvasSizeX -> y < canvasSizeY -> P d ->
     P (writePixel canvasSizeX (get heatGrid row col) x y d)) ->
  P data ->
  P (drawRemainder canvasSizeX canvasSizeY fullCellsX fullCellsY
       gridSizeX gridSizeY scale heatGrid data).
Proof.
  intros Hwrite. unfold drawRemainder.
  apply for_loop_preserves. intros row d1 Hrow.
  apply for_loop_preserves. intros col d2 Hcol.
  apply for_loop_preserves. intros y d3 Hy.
  apply for_loop_preserves. intros x d4 Hx.
  apply Hwrite; lia.
Qed.

(** X8: a rendering that is accepted returns a buffer of the length of the
    buffer it was given, whatever that length, the grid and the scale. *)
Theorem draw_keeps_length (canvas : Canvas) (data data' : ImageData)
  (heatGrid : Grid) (scale : nat) :
  drawHeatGrid canvas data heatGrid scale = inr data' ->
  length data' = length data.
Proof.
  intros Hdraw.
  rewrite (drawHeatGrid_accepted canvas data data' heatGrid scale Hdraw).
  transitivity
    (length (drawFullCells (width canvas) (width canvas / scale)
               (height canvas / scale) scale heatGrid data));
    [|apply drawFullCells_length].
  apply (drawRemainder_preserves
           (fun d => length d
                     = length (drawFullCells (width canvas) (width canvas / scale)
                                 (height canvas / scale) scale heatGrid data)));
    [|reflexivity].
  intros row col x y d _ _ Hd. rewrite length_writePixel. exact Hd.
Qed.

Lemma draw_keeps_length_witness :
  exists data',
    drawHeatGrid {| width := 3; height := 3 |} [5%R; 6%R] [[1%R; 1%R]; [1%R; 1%R]] 2
    = inr data' /\ length data' = 2.
Proof.
  eexists. split; [reflexivity|].
  apply (draw_keeps_length {| width := 3; height := 3 |} [5%R; 6%R] _
           [[1%R; 1%R]; [1%R; 1%R]] 2).
  reflexivity.
Defined.

(** A whole number is its own integer part. *)
Lemma Int_part_IZR (n : Z) : Int_part (IZR n) = n.
Proof. symmetry. apply Int_part_spec. lra. Qed.

(** A byte is stored as it is. *)
Lemma toUint8Clamp_byte (n : Z) :
  (0 <= n <= 255)%Z -> toUint8Clamp (IZR n) = IZR n.
Proof.
  intros [H0 H255]. apply IZR_le in H0, H255. unfold toUint8Clamp.
  rewrite Rmax_left by lra. rewrite Rmin_left by lra.
  cbv zeta. rewrite Int_part_IZR.
  destruct (Rlt_dec (IZR n) (IZR n + 1 / 2)) as [_|Hn]; [reflexivity|].
  exfalso. apply Hn. lra.
Qed.

(** A pixel that was written with the colour of [t] reads back as that
    colour. *)
Lemma painted_displays (data : ImageData) (canvasSizeX x y : nat) (t : R) :
  painted data canvasSizeX x y t -> displays data canvasSizeX x y t.
Proof.
  intros (Hr & _ & Hb & Ha). unfold displays. rewrite Hr, Hb, Ha.
  split; [reflexivity|].
  split; [apply (toUint8Clamp_byte 15)|apply (toUint8Clamp_byte 255)]; lia.
Qed.

(** X9: in an accepted rendering on a buffer of [width * height * 4]
    channels, every pixel [(x,y)] of a full block, [x < fullCellsX*scale]
    and [y < fullCellsY*scale], reads back with the colour of grid cell
    [(floor(y/scale), floor(x/scale))], whatever the buffer held: the red
    byte is the byte of the cell's temperature, clamped to [0, 255] and
    rounded, the blue byte is [15] and the alpha byte [255]. *)
Theorem draw_full_blocks_painted (canvas : Canvas) (data data' : ImageData)
  (heatGrid : Grid) (scale x y : nat) :
  1 <= scale ->
  drawHeatGrid canvas data heatGrid scale = inr data' ->
  length data = width canvas * height canvas * 4 ->
  x < width canvas / scale * scale -> y < height canvas / scale * scale ->
  displays data' (width canvas) x y (get heatGrid (y / scale) (x / scale)).
Proof.
  intros Hs Hdraw Hlen Hx Hy.
  destruct (drawHeatGrid_pixels canvas data data' heatGrid scale Hs) as [Hpaint _];
    [left; nia|exact Hdraw|].
  apply painted_displays. apply Hpaint; assumption.
Qed.

Lemma draw_full_blocks_painted_witness :
  exists data',
    drawHeatGrid {| width := 3; height := 3 |} (createImageData 3 3)
      [[1%R; 2%R]; [3%R; 4%R]] 2 = inr data' /\
    displays data' 3 1 0 1%R.
Proof.
  eexists. split; [reflexivity|].
  apply (draw_full_blocks_painted {| width := 3; height := 3 |}
           (createImageData 3 3) _ [[1%R; 2%R]; [3%R; 4%R]] 2 1 0);
    try reflexivity; simpl; lia.
Defined.

Lemma drawHeatGrid_accepts (canvas : Canvas) (data : ImageData)
  (heatGrid : Grid) (rows cols scale : nat) :
  rectangular heatGrid rows cols -> 1 <= rows ->
  cols <= width canvas -> rows <= height canvas ->
  totalCells (width canvas) scale = cols ->
  totalCells (height canvas) scale = rows ->
  exists data', drawHeatGrid canvas data heatGrid scale = inr data'.
Proof.
  intros [Hlen Hcols] Hrows HW HH HtX HtY.
  destruct heatGrid as [|row0 rest]; [simpl in Hlen; lia|].
  assert (Hc0 : length row0 = cols) by (apply (Hcols 0); lia).
  unfold drawHeatGrid. rewrite Hlen, Hc0, HtX, HtY, !Nat.eqb_refl.
  replace (width canvas <? cols) with false by (symmetry; apply Nat.ltb_ge; lia).
  replace (height canvas <? rows) with false by (symmetry; apply Nat.ltb_ge; lia).
  eexists. reflexivity.
Qed.

(** X10: on a target that is a whole number of blocks wide and high,
    [cols*scale] by [rows*scale] pixels for a grid of [rows] by [cols]
    cells, the rendering is accepted and every pixel [(x,y)] of the target
    reads back with the colour of grid cell [(floor(y/scale),
    floor(x/scale))]: the red byte is the byte of the cell's temperature,
    the blue byte is [15] and the alpha byte [255]. *)
Theorem draw_whole_blocks (heatGrid : Grid) (rows cols scale : nat)
  (data : ImageData) :
  rectangular heatGrid rows cols -> 1 <= rows -> 1 <= cols -> 1 <= scale ->
  length data = cols * scale * (rows * scale) * 4 ->
  exists data',
    drawHeatGrid {| width := cols * scale; height := rows * scale |} data
      heatGrid scale = inr data' /\
    forall x y, x < cols * scale -> y < rows * scale ->
      displays data' (cols * scale) x y (get heatGrid (y / scale) (x / scale)).
Proof.
  intros Hrect Hrows Hcols Hs Hlen.
  destruct (drawHeatGrid_accepts {| width := cols * scale; height := rows * scale |}
              data heatGrid rows cols scale Hrect Hrows) as [data' Hdraw];
    cbn [width height]; try nia; try (apply totalCells_multiple; exact Hs).
  exists data'. split; [exact Hdraw|].
  intros x y Hx Hy.
  destruct (drawHeatGrid_pixels {| width := cols * scale; height := rows * scale |}
              data data' heatGrid scale Hs) as [Hpaint _];
    [cbn [width height]; rewrite !Nat.div_mul by lia; lia|exact Hdraw|].
  cbn [width height] in Hpaint. rewrite !Nat.div_mul in Hpaint by lia.
  apply painted_displays. apply Hpaint; assumption.
Qed.

Lemma draw_whole_blocks_witness :
  exists data',
    drawHeatGrid {| width := 2 * 3; height := 1 * 3 |} (createImageData 6 3)
      [[1%R; 2%R]] 3 = inr data' /\
    forall x y, x < 2 * 3 -> y < 1 * 3 ->
      displays data' (2 * 3) x y (get [[1%R; 2%R]] (y / 3) (x / 3)).
Proof.
  apply (draw_whole_blocks [[1%R; 2%R]] 1 2 3 (createImageData 6 3));
    try lia; [apply rectangular_1x2|reflexivity].
Defined.

(** X11: what the rendering never paints.  In an accepted rendering on a
    target that holds a full block along some axis, a pixel beyond the
    full blocks, [x >= fullCellsX*scale] or [y >= fullCellsY*scale], keeps
    in every channel the value the buffer held before: the remainder
    column and the remainder row are left as they were. *)
Theorem draw_remainder_kept (canvas : Canvas) (data data' : ImageData)
  (heatGrid : Grid) (scale x y k : nat) :
  1 <= scale ->
  1 <= width canvas / scale \/ 1 <= height canvas / scale ->
  drawHeatGrid canvas data heatGrid scale = inr data' ->
  x < width canvas -> k < 4 ->
  width canvas / scale * scale <= x \/ height canvas / scale * scale <= y ->
  channel data' (width canvas) x y k = channel data (width canvas) x y k.
Proof.
  intros Hs Hfull Hdraw Hx Hk Hout.
  destruct (drawHeatGrid_pixels canvas data data' heatGrid scale Hs Hfull Hdraw)
    as [_ Hframe].
  apply Hframe; assumption.
Qed.

Lemma draw_remainder_kept_witness :
  exists data',
    drawHeatGrid {| width := 10; height := 10 |} (repeat 7%R 400)
      (uniform 3 3 1%R) 4 = inr data' /\
    channel data' 10 9 0 3 = channel (repeat 7%R 400) 10 9 0 3.
Proof.
  eexists. split; [reflexivity|].
  apply (draw_remainder_kept {| width := 10; height := 10 |} (repeat 7%R 400) _
           (uniform 3 3 1%R) 4 9 0 3); try reflexivity; simpl; lia.
Defined.

(** A pair of loops that writes one colour to every pixel of a rectangle
    paints each pixel of the rectangle. *)
Lemma fill_rectangle (canvasSizeX yhi xhi : nat) (heat : R) (data : ImageData)
  (x0 y0 : nat) :
  xhi <= canvasSizeX -> x0 < xhi -> y0 < yhi ->
  y0 * canvasSizeX * 4 + x0 * 4 + 3 < length data ->
  painted
    (for_loop 0 yhi (fun y d =>
       for_loop 0 xhi (fun x d' => writePixel canvasSizeX heat x y d') d) data)
    canvasSizeX x0 y0 heat.
Proof.
  intros HW Hx0 Hy0 Hlen.
  set (I := fun d : ImageData => length d = length data).
  set (Q := fun d : ImageData => painted d canvasSizeX x0 y0 heat).
  assert (HI : forall x y d, I d -> I (writePixel canvasSizeX heat x y d)).
  { intros x y d Hd. unfold I. rewrite length_writePixel. exact Hd. }
  assert (HQ : forall x y d, x < xhi -> I d -> Q d ->
                 Q (writePixel canvasSizeX heat x y d)).
  { intros x y d Hx Hd Hq. unfold Q.
    destruct (Nat.eq_dec x x0) as [->|Hnx]; [destruct (Nat.eq_dec y y0) as [->|Hny]|].
    - apply painted_writePixel. rewrite Hd. exact Hlen.
    - apply painted_writePixel_other; try lia; [congruence|exact Hq].
    - apply painted_writePixel_other; try lia; [congruence|exact Hq]. }
  apply (for_loop_establish I Q) with (i0 := y0); [lia| | | |reflexivity].
  - intros y d1 Hy. apply for_loop_preserves. intros x d2 Hx. apply HI.
  - intros y d1 Hy Hi1 Hq1.
    apply (for_loop_preserves (fun d => I d /\ Q d)); [|split; assumption].
    intros x d2 Hx [Hi2 Hq2]. split; [apply HI; exact Hi2|apply HQ; try assumption; lia].
  - intros d1.
    apply (for_loop_establish I Q) with (i0 := x0); [lia| | |].
    + intros x d2 Hx. apply HI.
    + intros x d2 Hx. apply HQ. lia.
    + intros d2 Hd2. unfold Q. apply painted_writePixel. rewrite Hd2. exact Hlen.
Qed.

(** X12: where the remainder nest does run.  On a target smaller than one
    block in both directions, [1 <= width < scale] and
    [1 <= height < scale], a grid of a single cell is accepted and every
    pixel of the target reads back with the colour of that cell: the red
    byte is the byte of the cell's temperature, the blue byte is [15] and
    the alpha byte [255]. *)
Theorem draw_single_partial_block (canvas : Canvas) (data : ImageData)
  (t : R) (scale : nat) :
  1 <= width canvas < scale -> 1 <= height canvas < scale ->
  length data = width canvas * height canvas * 4 ->
  exists data',
    drawHeatGrid canvas data [[t]] scale = inr data' /\
    forall x y, x < width canvas -> y < height canvas ->
      displays data' (width canvas) x y t.
Proof.
  intros HW HH Hlen.
  assert (HfX : width canvas / scale = 0) by (apply Nat.div_small; lia).
  assert (HfY : height canvas / scale = 0) by (apply Nat.div_small; lia).
  assert (HtX : totalCells (width canvas) scale = 1).
  { unfold totalCells. rewrite HfX, Nat.mod_small by lia.
    destruct (Nat.eqb_spec (width canvas) 0); lia. }
  assert (HtY : totalCells (height canvas) scale = 1).
  { unfold totalCells. rewrite HfY, Nat.mod_small by lia.
    destruct (Nat.eqb_spec (height canvas) 0); lia. }
  destruct (drawHeatGrid_accepts canvas data [[t]] 1 1 scale) as [data' Hdraw];
    try lia; try assumption; [apply rectangular_1x1|].
  exists data'. split; [exact Hdraw|].
  intros x y Hx Hy. apply painted_displays.
  rewrite (drawHeatGrid_accepted canvas data data' [[t]] scale Hdraw).
  rewrite HfX, HfY, HtX, HtY.
  unfold drawFullCells. rewrite (for_loop_empty 0 0) by lia.
  unfold drawRemainder. cbn [Nat.mul].
  change (for_loop 0 1) with
    (fun (body : nat -> ImageData -> ImageData) (s : ImageData) => body 0 s).
  cbv beta. cbn [Nat.mul get nth].
  apply fill_rectangle; try lia. rewrite Hlen. nia.
Qed.

Lemma draw_single_partial_block_witness :
  exists data',
    drawHeatGrid {| width := 2; height := 3 |} (createImageData 2 3) [[9%R]] 5
    = inr data' /\
    forall x y, x < 2 -> y < 3 -> displays data' 2 x y 9%R.
Proof.
  apply (draw_single_partial_block {| width := 2; height := 3 |}
           (createImageData 2 3) 9%R 5); simpl; first [lia | reflexivity].
Defined.

(** ** The cell under the pointer *)

(** The floor of [q / scale] is the only integer [k] with
    [k*scale <= q < (k+1)*scale]. *)
Lemma Qfloor_div_unique (q : Q) (scale : nat) (k : Z) :
  1 <= scale ->
  (inject_Z k * inject_Z (Z.of_nat scale) <= q)%Q ->
  (q < (inject_Z k + 1) * inject_Z (Z.of_nat scale))%Q ->
  Qfloor (q / inject_Z (Z.of_nat scale)) = k.
Proof.
  intros Hs Hlo Hhi. pose proof (scale_positive scale Hs) as Hpos.
  set (s := inject_Z (Z.of_nat scale)) in *.
  assert (H1 : (inject_Z k <= q / s)%Q) by (apply Qle_shift_div_l; assumption).
  assert (H2 : (q / s < inject_Z k + 1)%Q) by (apply Qlt_shift_div_r; assumption).
  apply Qfloor_resp_le in H1. rewrite Qfloor_Z in H1.
  pose proof (Qfloor_le (q / s)) as H3.
  assert (H4 : (inject_Z (Qfloor (q / s)) < inject_Z (k + 1))%Q).
  { rewrite inject_Z_plus. change (inject_Z 1) with 1%Q.
    eapply Qle_lt_trans; [exact H3|exact H2]. }
  rewrite <- Zlt_Qlt in H4. lia.
Qed.

(** X13: for a scale from [1] to [2^53] and a pointer coordinate of
    [exactCoordinate] (a whole number or a non-negative number),
    [canvasXYToGridXY] returns column [col] exactly for the positions with
    [col*scale <= px-1 < (col+1)*scale] and row [row] exactly for those
    with [row*scale <= py-1 < (row+1)*scale]; and at every scale [>= 1] and
    for all positions it is monotone: a position further right or further
    down never gets a smaller index. *)
Theorem canvasXYToGridXY_cell (px py : Q) (scale : nat) :
  1 <= scale ->
  let s := inject_Z (Z.of_nat scale) in
  ((Z.of_nat scale <= 2 ^ 53)%Z -> exactCoordinate px -> forall col : Z,
     fst (canvasXYToGridXY px py scale) = col
     <-> (inject_Z col * s <= px - 1 /\ px - 1 < (inject_Z col + 1) * s)%Q) /\
  ((Z.of_nat scale <= 2 ^ 53)%Z -> exactCoordinate py -> forall row : Z,
     snd (canvasXYToGridXY px py scale) = row
     <-> (inject_Z row * s <= py - 1 /\ py - 1 < (inject_Z row + 1) * s)%Q) /\
  (forall px' py' : Q, (px <= px')%Q -> (py <= py')%Q ->
     (fst (canvasXYToGridXY px py scale) <= fst (canvasXYToGridXY px' py' scale))%Z /\
     (snd (canvasXYToGridXY px py scale) <= snd (canvasXYToGridXY px' py' scale))%Z).
Proof.
  intros Hs s. pose proof (scale_positive scale Hs) as Hpos. fold s in Hpos.
  unfold canvasXYToGridXY. cbn [fst snd]. fold s.
  split; [|split].
  - intros _ _ col. split.
    + intros <-. apply (Qfloor_div_bounds (px - 1) scale Hs).
    + intros [Hlo Hhi]. apply Qfloor_div_unique; assumption.
  - intros _ _ row. split.
    + intros <-. apply (Qfloor_div_bounds (py - 1) scale Hs).
    + intros [Hlo Hhi]. apply Qfloor_div_unique; assumption.
  - intros px' py' Hx Hy. split; apply Qfloor_resp_le;
      apply Qmult_le_compat_r;
      try (apply Qlt_le_weak; apply Qinv_lt_0_compat; exact Hpos);
      Lqa.lra.
Qed.

Lemma canvasXYToGridXY_cell_witness :
  (Z.of_nat 4 <= 2 ^ 53)%Z /\ exactCoordinate (25 # 2) /\
  fst (canvasXYToGridXY (25 # 2) 1 4) = 2%Z.
Proof.
  assert (H : exactCoordinate (25 # 2)).
  { split; [left; unfold Qle; simpl; lia|]. split; unfold Qle; simpl; lia. }
  assert (H4 : (Z.of_nat 4 <= 2 ^ 53)%Z) by (simpl; lia).
  split; [exact H4|]. split; [exact H|].
  apply (canvasXYToGridXY_cell (25 # 2) 1 4 ltac:(lia)); [exact H4|exact H|].
  split; [unfold Qle|unfold Qlt]; simpl; lia.
Defined.

(** X14: the mapping from a pointer position to a cell is the mapping of
    the rasterizer shifted by one pixel.  A position over pixel column [x]
    ([x <= px < x+1]) is mapped to the column drawn at pixel column [x-1]:
    to [floor(x/scale)], the column painted at [x], unless [x] is the first
    pixel column of its block, and then to the column before it ([-1] for
    [x = 0]).  Likewise for rows. *)
Theorem canvasXYToGridXY_pixel (px py : Q) (scale x y : nat) :
  1 <= scale ->
  (inject_Z (Z.of_nat x) <= px /\ px < inject_Z (Z.of_nat x) + 1)%Q ->
  (inject_Z (Z.of_nat y) <= py /\ py < inject_Z (Z.of_nat y) + 1)%Q ->
  fst (canvasXYToGridXY px py scale)
  = (if (x mod scale =? 0)%nat then Z.of_nat (x / scale) - 1 else Z.of_nat (x / scale))%Z /\
  snd (canvasXYToGridXY px py scale)
  = (if (y mod scale =? 0)%nat then Z.of_nat (y / scale) - 1 else Z.of_nat (y / scale))%Z.
Proof.
  intros Hs Hx Hy.
  assert (Hone : forall (p : Q) (n : nat),
            (inject_Z (Z.of_nat n) <= p /\ p < inject_Z (Z.of_nat n) + 1)%Q ->
            Qfloor ((p - 1) / inject_Z (Z.of_nat scale))
            = (if (n mod scale =? 0)%nat then Z.of_nat (n / scale) - 1
               else Z.of_nat (n / scale))%Z).
  { intros p n [Hlo Hhi].
    pose proof (Nat.div_mod_eq n scale) as Hdm.
    pose proof (Nat.mod_upper_bound n scale ltac:(lia)) as Hm.
    set (k := (if (n mod scale =? 0)%nat then Z.of_nat (n / scale) - 1
               else Z.of_nat (n / scale))%Z).
    assert (Hk : (k * Z.of_nat scale <= Z.of_nat n - 1
                  /\ Z.of_nat n <= (k + 1) * Z.of_nat scale)%Z).
    { unfold k. destruct (Nat.eqb_spec (n mod scale) 0); nia. }
    destruct Hk as [Hk1 Hk2].
    assert (Hn1 : (inject_Z (Z.of_nat n - 1) == inject_Z (Z.of_nat n) - 1)%Q).
    { unfold Z.sub. rewrite inject_Z_plus. reflexivity. }
    rewrite Zle_Qle in Hk1, Hk2.
    rewrite inject_Z_mult in Hk1. rewrite Hn1 in Hk1.
    rewrite inject_Z_mult, inject_Z_plus in Hk2.
    change (inject_Z 1) with 1%Q in Hk2.
    apply Qfloor_div_unique; [exact Hs| |].
    - set (a := (inject_Z k * inject_Z (Z.of_nat scale))%Q) in *. Lqa.lra.
    - set (b := ((inject_Z k + 1) * inject_Z (Z.of_nat scale))%Q) in *. Lqa.lra. }
  unfold canvasXYToGridXY. cbn [fst snd]. split; apply Hone; assumption.
Qed.

Lemma canvasXYToGridXY_pixel_witness :
  fst (canvasXYToGridXY (8 # 1) (17 # 2) 4) = 1%Z /\
  snd (canvasXYToGridXY (8 # 1) (17 # 2) 4) = 1%Z.
Proof.
  apply (canvasXYToGridXY_pixel (8 # 1) (17 # 2) 4 8 8); [lia| |];
    (split; [unfold Qle|unfold Qlt]; simpl; lia).
Defined.

(** ** More on heat injection *)

(** The cells of the grid after an injection, at any position. *)
Lemma addHeat_anywhere (g : Grid) (rows cols : nat) (gridX gridY : Z) (heat : R) :
  rectangular g rows cols ->
  rectangular (addHeat g (Z.of_nat rows) (Z.of_nat cols) gridX gridY heat) rows cols /\
  forall i j, i < rows -> j < cols ->
    get (addHeat g (Z.of_nat rows) (Z.of_nat cols) gridX gridY heat) i j = get g i j \/
    get (addHeat g (Z.of_nat rows) (Z.of_nat cols) gridX gridY heat) i j
    = (get g i j + heat)%R.
Proof.
  intros Hrect.
  assert (Hcases : (gridX < 0 \/ Z.of_nat cols <= gridX \/ gridY < 0
                    \/ Z.of_nat rows <= gridY)%Z \/
                   ((0 <= gridX < Z.of_nat cols)%Z /\ (0 <= gridY < Z.of_nat rows)%Z))
    by lia.
  destruct Hcases as [Hout|[Hx Hy]].
  - rewrite addHeat_outside by exact Hout. split; [exact Hrect|]. intros. left. reflexivity.
  - rewrite <- (Z2Nat.id gridX), <- (Z2Nat.id gridY) by lia.
    destruct (addHeat_cells g rows cols (Z.to_nat gridY) (Z.to_nat gridX) heat Hrect)
      as [Hrect' Hget]; try lia.
    split; [exact Hrect'|].
    intros i j Hi Hj. rewrite (Hget i j Hi Hj).
    destruct (near _ _ i j); [right|left]; reflexivity.
Qed.

(** X15: an injection at any position, inside the grid or not, keeps the
    shape of the grid; with [heat >= 0] no cell decreases and no cell
    rises by more than [heat], so a grid without negative cells stays
    without negative cells. *)
Theorem addHeat_keeps_grid (g : Grid) (rows cols : nat) (gridX gridY : Z) (heat : R) :
  rectangular g rows cols ->
  let g' := addHeat g (Z.of_nat rows) (Z.of_nat cols) gridX gridY heat in
  rectangular g' rows cols /\
  ((0 <= heat)%R ->
   forall i j, i < rows -> j < cols ->
     (get g i j <= get g' i j <= get g i j + heat)%R).
Proof.
  intros Hrect g'.
  destruct (addHeat_anywhere g rows cols gridX gridY heat Hrect) as [Hrect' Hget].
  split; [exact Hrect'|].
  intros Hheat i j Hi Hj. unfold g'.
  destruct (Hget i j Hi Hj) as [-> | ->]; lra.
Qed.

Lemma addHeat_keeps_grid_witness :
  rectangular (addHeat [[1%R; 2%R]] 1 2 1 0 8%R) 1 2 /\
  forall i j, i < 1 -> j < 2 ->
    (get [[1%R; 2%R]] i j <= get (addHeat [[1%R; 2%R]] 1 2 1 0 8%R) i j
     <= get [[1%R; 2%R]] i j + 8)%R.
Proof.
  destruct (addHeat_keeps_grid [[1%R; 2%R]] 1 2 1 0 8%R (rectangular_1x2 1%R 2%R))
    as [Hrect Hget].
  split; [exact Hrect|]. apply Hget. lra.
Defined.

(** X16: an injection at a cell [(r,c)] of the grid raises by [heat]
    exactly the cell and those of its four cardinal neighbours that lie in
    the grid, [1] cell plus one for each of [c > 0], [c < cols-1], [r > 0],
    [r < rows-1], and leaves every other cell unchanged.  (Five in the
    interior, four on an edge, three in a corner of a grid with two rows
    and columns or more, fewer in a grid of a single row or column.) *)
Theorem addHeat_count (g : Grid) (rows cols r c : nat) (heat : R) :
  rectangular g rows cols -> r < rows -> c < cols ->
  raisesNear
    (1 + (if 0 <? c then 1 else 0) + (if c + 1 <? cols then 1 else 0)
       + (if 0 <? r then 1 else 0) + (if r + 1 <? rows then 1 else 0))
    g (addHeat g (Z.of_nat rows) (Z.of_nat cols) (Z.of_nat c) (Z.of_nat r) heat)
    rows cols r c heat.
Proof.
  intros Hrect Hr Hc.
  set (cells := [(r, c)] ++ (if 0 <? c then [(r, c - 1)] else [])
                  ++ (if c + 1 <? cols then [(r, c + 1)] else [])
                  ++ (if 0 <? r then [(r - 1, c)] else [])
                  ++ (if r + 1 <? rows then [(r + 1, c)] else [])).
  replace (1 + (if 0 <? c then 1 else 0) + (if c + 1 <? cols then 1 else 0)
             + (if 0 <? r then 1 else 0) + (if r + 1 <? rows then 1 else 0))
    with (length cells)
    by (unfold cells; destruct (0 <? c), (c + 1 <? cols), (0 <? r), (r + 1 <? rows);
        reflexivity).
  apply (addHeat_raises g rows cols r c heat cells); try assumption; unfold cells;
    destruct (Nat.ltb_spec 0 c), (Nat.ltb_spec (c + 1) cols),
      (Nat.ltb_spec 0 r), (Nat.ltb_spec (r + 1) rows);
    cbn [app].
  all: match goal with
       | |- NoDup _ => distinct_cells
       | |- forall i j, In _ _ -> _ => listed_cells
       | |- _ => neighbourhood_cells
       end.
Qed.

Lemma addHeat_count_witness :
  raisesNear 4 (uniform 3 3 0%R) (addHeat (uniform 3 3 0%R) 3 3 1 0 8%R) 3 3 0 1 8%R.
Proof.
  apply (addHeat_count (uniform 3 3 0%R) 3 3 0 1 8%R);
    [apply rectangular_uniform|lia|lia].
Defined.

(** X17: injections accumulate without a ceiling: [n] injections of
    [heat] at the same cell of the grid raise that cell and its cardinal
    neighbours in the grid by [n * heat] and leave every other cell as it
    was. *)
Theorem addHeat_accumulates (n : nat) (g : Grid) (rows cols r c : nat) (heat : R) :
  rectangular g rows cols -> r < rows -> c < cols ->
  let g' := addHeatTimes n g (Z.of_nat rows) (Z.of_nat cols)
              (Z.of_nat c) (Z.of_nat r) heat in
  rectangular g' rows cols /\
  forall i j, i < rows -> j < cols ->
    get g' i j = if near r c i j then (get g i j + INR n * heat)%R else get g i j.
Proof.
  intros Hrect Hr Hc. cbv zeta. revert g Hrect.
  induction n as [|n IH]; intros g Hrect.
  - split; [exact Hrect|]. intros i j _ _. simpl.
    destruct (near r c i j); [lra|reflexivity].
  - destruct (addHeat_cells g rows cols r c heat Hrect Hr Hc) as [Hrect1 Hget1].
    destruct (IH _ Hrect1) as [Hrect' Hget'].
    cbn [addHeatTimes]. split; [exact Hrect'|].
    intros i j Hi Hj. rewrite (Hget' i j Hi Hj), (Hget1 i j Hi Hj), S_INR.
    destruct (near r c i j); [lra|reflexivity].
Qed.

Lemma addHeat_accumulates_witness :
  get (addHeatTimes 3 [[1%R; 2%R]] 1 2 0 0 8%R) 0 1
  = (get [[1%R; 2%R]] 0 1 + INR 3 * 8)%R.
Proof.
  destruct (addHeat_accumulates 3 [[1%R; 2%R]] 1 2 0 0 8%R) as [_ Hget];
    [apply rectangular_1x2|lia|lia|].
  apply (Hget 0 1); lia.
Defined.

(** X18: one run of the injection while the button is held, with the
    pointer at [(x,y)] where [c*scale <= x-1 < (c+1)*scale] and
    [r*scale <= y-1 < (r+1)*scale] for a cell [(r,c)] of the grid, raises
    that cell and its cardinal neighbours in the grid by
    [heatMultiplier * 8] and leaves every other cell as it was. *)
Theorem intervalTick_cell (x y : Q) (scale : nat) (multiplier : R)
  (g : Grid) (rows cols r c : nat) :
  1 <= scale -> rectangular g rows cols -> r < rows -> c < cols ->
  (inject_Z (Z.of_nat c) * inject_Z (Z.of_nat scale) <= x - 1)%Q ->
  (x - 1 < (inject_Z (Z.of_nat c) + 1) * inject_Z (Z.of_nat scale))%Q ->
  (inject_Z (Z.of_nat r) * inject_Z (Z.of_nat scale) <= y - 1)%Q ->
  (y - 1 < (inject_Z (Z.of_nat r) + 1) * inject_Z (Z.of_nat scale))%Q ->
  forall i j, i < rows -> j < cols ->
    get (intervalTick true x y scale multiplier (Z.of_nat rows) (Z.of_nat cols) g) i j
    = if near r c i j then (get g i j + multiplier * 8)%R else get g i j.
Proof.
  intros Hs Hrect Hr Hc Hx1 Hx2 Hy1 Hy2 i j Hi Hj.
  rewrite intervalTick_held. unfold canvasXYToGridXY. cbn [fst snd].
  rewrite (Qfloor_div_unique (x - 1) scale (Z.of_nat c) Hs Hx1 Hx2).
  rewrite (Qfloor_div_unique (y - 1) scale (Z.of_nat r) Hs Hy1 Hy2).
  destruct (addHeat_cells g rows cols r c (multiplier * 8)%R Hrect Hr Hc) as [_ Hget].
  apply Hget; assumption.
Qed.

Lemma intervalTick_cell_witness :
  get (intervalTick true (11 # 2) 1 4 2%R 1 2 [[0%R; 0%R]]) 0 0
  = (get [[0%R; 0%R]] 0 0 + 2 * 8)%R.
Proof.
  apply (intervalTick_cell (11 # 2) 1 4 2%R [[0%R; 0%R]] 1 2 0 1 ltac:(lia)
           (rectangular_1x2 0%R 0%R) ltac:(lia) ltac:(lia)
           ltac:(unfold Qle; simpl; lia) ltac:(unfold Qlt; simpl; lia)
           ltac:(unfold Qle; simpl; lia) ltac:(unfold Qlt; simpl; lia)
           0 0); lia.
Defined.

(** ** The pointer handlers and their intervals *)

Lemma In_clearInterval (id : option nat) (live : list nat) (n : nat) :
  In n (clearInterval id live) <-> In n live /\ id <> Some n.
Proof.
  destruct id as [m|]; simpl.
  - rewrite filter_In, negb_true_iff, Nat.eqb_neq. split.
    + intros [Hin Hne]. split; [exact Hin|]. intros Heq. injection Heq as <-. auto.
    + intros [Hin Hne]. split; [exact Hin|]. intros ->. auto.
  - split; [intros H; split; [exact H|discriminate]|intros [H _]; exact H].
Qed.

(** The shape of the state after one event, as far as the intervals go. *)
Lemma handle_timers (env : Settings) (st : Pointer) (ev : PointerEvent) :
  (holding (handle env st ev) = holding st /\
   intervalID (handle env st ev) = intervalID st /\
   nextTimer (handle env st ev) = nextTimer st /\
   (timers (handle env st ev) = timers st \/
    (holding st = false /\
     timers (handle env st ev) = clearInterval (intervalID st) (timers st)))) \/
  (holding (handle env st ev) = (match ev with MouseDown => true | _ => false end) /\
   (ev = MouseDown \/ ev = MouseUp \/ ev = MouseLeave) /\
   intervalID (handle env st ev) = Some (nextTimer st) /\
   nextTimer (handle env st ev) = S (nextTimer st) /\
   timers (handle env st ev) = nextTimer st :: timers st).
Proof.
  destruct ev as [| | |event|id]; simpl.
  - right. repeat split; auto.
  - right. repeat split; auto.
  - right. repeat split; auto.
  - left. repeat split; auto.
  - left. destruct (existsb (Nat.eqb id) (timers st)); [|repeat split; auto].
    unfold intervalCallback. destruct (holding st) eqn:Hh; simpl.
    + destruct (mouseEvent st) as [event|]; [|repeat split; auto].
      destruct (getMousePosition (canvasRect env) event) as [x y]. simpl.
      repeat split; auto.
    + repeat split; auto.
Qed.

Lemma handle_fresh (env : Settings) (st : Pointer) (ev : PointerEvent) :
  timersFresh st -> timersFresh (handle env st ev).
Proof.
  intros Hfresh id Hin.
  destruct (handle_timers env st ev)
    as [(_ & _ & Hnext & [Ht|[_ Ht]])|(_ & _ & _ & Hnext & Ht)];
    rewrite Hnext; rewrite Ht in Hin.
  - apply Hfresh. exact Hin.
  - apply In_clearInterval in Hin. apply Hfresh. apply Hin.
  - destruct Hin as [<-|Hin]; [lia|]. specialize (Hfresh id Hin). lia.
Qed.

(** X19: an interval is only ever cleared while it is the one named by
    [intervalID].  Once a newer interval has been created, an interval that
    is live stays live through every further sequence of events: nothing
    in the program can stop it. *)
Theorem superseded_interval_never_cleared (env : Settings) (st : Pointer)
  (id : nat) (trace : list PointerEvent) :
  timersFresh st -> In id (timers st) -> intervalID st <> Some id ->
  In id (timers (run env st trace)) /\ intervalID (run env st trace) <> Some id.
Proof.
  unfold run. revert st.
  induction trace as [|ev trace IH]; intros st Hfresh Hin Hne; [split; assumption|].
  simpl. apply IH.
  - apply handle_fresh. exact Hfresh.
  - destruct (handle_timers env st ev)
      as [(_ & _ & _ & [Ht|[_ Ht]])|(_ & _ & _ & _ & Ht)]; rewrite Ht.
    + exact Hin.
    + apply In_clearInterval. split; assumption.
    + right. exact Hin.
  - destruct (handle_timers env st ev)
      as [(_ & Hid & _ & _)|(_ & _ & Hid & _ & _)]; rewrite Hid.
    + exact Hne.
    + intros Heq. injection Heq as Heq. specialize (Hfresh id Hin). lia.
Qed.

Lemma superseded_interval_never_cleared_witness :
  In 1 (timers (run {| canvasRect := {| rect_left := 0; rect_top := 0 |};
                       scaleSetting := 4; heatMultiplier := 1%R;
                       rowsSetting := 1; colsSetting := 1 |}
                  (handle {| canvasRect := {| rect_left := 0; rect_top := 0 |};
                             scaleSetting := 4; heatMultiplier := 1%R;
                             rowsSetting := 1; colsSetting := 1 |}
                     (handle {| canvasRect := {| rect_left := 0; rect_top := 0 |};
                                scaleSetting := 4; heatMultiplier := 1%R;
                                rowsSetting := 1; colsSetting := 1 |}
                        (initialPointer [[0%R]]) MouseDown) MouseUp)
                  [Fire 1; Fire 2; Fire 1; Fire 1])).
Proof.
  apply (superseded_interval_never_cleared _ _ 1 [Fire 1; Fire 2; Fire 1; Fire 1]).
  - intros id Hin. simpl in Hin. simpl. lia.
  - simpl. auto.
  - simpl. discriminate.
Defined.

Lemma clearInterval_length (id : option nat) (live : list nat) :
  length (clearInterval id live) <= length live.
Proof. destruct id; simpl; [apply filter_length_le|lia]. Qed.

Lemma clearInterval_twice (id : option nat) (live : list nat) :
  clearInterval id (clearInterval id live) = clearInterval id live.
Proof.
  destruct id as [n|]; simpl; [|reflexivity].
  induction live as [|m live IH]; simpl; [reflexivity|].
  destruct (negb (m =? n)) eqn:Hm; simpl; [rewrite Hm, IH|]; auto.
Qed.

Lemma clearInterval_fresh (n : nat) (live : list nat) :
  (forall m, In m live -> m < n) ->
  clearInterval (Some n) (n :: live) = live.
Proof.
  intros Hfresh. simpl. rewrite Nat.eqb_refl. simpl.
  induction live as [|m live IH]; simpl; [reflexivity|].
  assert (Hm : m <> n) by (specialize (Hfresh m (or_introl eq_refl)); lia).
  apply Nat.eqb_neq in Hm. rewrite Hm. simpl. f_equal.
  apply IH. intros k Hk. apply Hfresh. right. exact Hk.
Qed.

Lemma mouseDowns_cons (ev : PointerEvent) (trace : list PointerEvent) :
  mouseDowns (ev :: trace)
  = (match ev with MouseDown => 1 | _ => 0 end) + mouseDowns trace.
Proof. unfold mouseDowns. destruct ev; reflexivity. Qed.

(** The intervals that nothing can clear any more: all of them while the
    button is held, all but the latest otherwise. *)
Lemma leaked_intervals (env : Settings) (trace : list PointerEvent)
  (st : Pointer) (k : nat) :
  timersFresh st ->
  k <= length (if holding st then timers st
               else clearInterval (intervalID st) (timers st)) ->
  k + mouseDowns trace <= length (timers (run env st trace)).
Proof.
  unfold run. revert st k.
  induction trace as [|ev trace IH]; intros st k Hfresh Hk.
  - simpl. unfold mouseDowns. simpl. rewrite Nat.add_0_r.
    destruct (holding st); [exact Hk|].
    pose proof (clearInterval_length (intervalID st) (timers st)). lia.
  - simpl. rewrite mouseDowns_cons.
    assert (Hall : k <= length (timers st)).
    { destruct (holding st); [exact Hk|].
      pose proof (clearInterval_length (intervalID st) (timers st)). lia. }
    replace (k + ((match ev with MouseDown => 1 | _ => 0 end) + mouseDowns trace))
      with ((k + match ev with MouseDown => 1 | _ => 0 end) + mouseDowns trace) by lia.
    apply IH; [apply handle_fresh; exact Hfresh|].
    destruct (handle_timers env st ev)
      as [(Hh & Hid & _ & Ht)|(Hh & Hev & Hid & _ & Ht)].
    + assert (Hno : match ev with MouseDown => 1 | _ => 0 end = 0).
      { destruct ev; try reflexivity. simpl in Hh.
        destruct Ht as [Ht|[_ Ht]]; simpl in Ht.
        - exfalso. apply (f_equal (@length nat)) in Ht. simpl in Ht. lia.
        - exfalso. apply (f_equal (@length nat)) in Ht. simpl in Ht.
          pose proof (clearInterval_length (intervalID st) (timers st)). lia. }
      rewrite Hno, Nat.add_0_r, Hh, Hid.
      destruct Ht as [Ht|[Hfalse Ht]]; rewrite Ht.
      * exact Hk.
      * rewrite Hfalse in *. rewrite clearInterval_twice. exact Hk.
    + rewrite Hh, Hid, Ht.
      destruct Hev as [->|[->| ->]].
      * simpl. lia.
      * rewrite clearInterval_fresh by exact Hfresh. lia.
      * rewrite clearInterval_fresh by exact Hfresh. lia.
Qed.

(** X20: every press of the button leaves an interval behind.  Whatever
    the order of the mouse events and of the interval callbacks, the number
    of live intervals is never below the number of [mousedown] events
    handled since the program started. *)
Theorem intervals_leak (env : Settings) (heatGrid : Grid)
  (trace : list PointerEvent) :
  mouseDowns trace <= length (timers (run env (initialPointer heatGrid) trace)).
Proof.
  apply (leaked_intervals env trace (initialPointer heatGrid) 0).
  - intros id [].
  - simpl. lia.
Qed.

Lemma handle_grid_idle (env : Settings) (st : Pointer) (ev : PointerEvent) :
  holding st = false -> ev <> MouseDown ->
  holding (handle env st ev) = false /\ grid (handle env st ev) = grid st.
Proof.
  intros Hh Hev. destruct ev as [| | |event|id]; simpl; try (split; auto; fail).
  - congruence.
  - destruct (existsb (Nat.eqb id) (timers st)); [|split; auto].
    unfold intervalCallback. rewrite Hh. simpl. split; auto.
Qed.

(** X21: heat is only injected after a press of the button.  From a state
    in which the button is not held, a sequence of events without a
    [mousedown], however many callbacks and mouse moves it holds, leaves
    the grid as it was. *)
Theorem no_heat_without_mousedown (env : Settings) (st : Pointer)
  (trace : list PointerEvent) :
  holding st = false -> mouseDowns trace = 0 ->
  grid (run env st trace) = grid st /\ holding (run env st trace) = false.
Proof.
  unfold run. revert st.
  induction trace as [|ev trace IH]; intros st Hh Hno; [split; auto|].
  rewrite mouseDowns_cons in Hno. simpl.
  assert (Hev : ev <> MouseDown) by (intros ->; simpl in Hno; lia).
  destruct (handle_grid_idle env st ev Hh Hev) as [Hh' Hg'].
  destruct (IH (handle env st ev) Hh') as [Hg Hhold]; [destruct ev; simpl in *; lia|].
  split; [rewrite Hg; exact Hg'|exact Hhold].
Qed.

Lemma no_heat_without_mousedown_witness :
  grid (run {| canvasRect := {| rect_left := 0; rect_top := 0 |};
               scaleSetting := 4; heatMultiplier := 1%R;
               rowsSetting := 1; colsSetting := 1 |}
          (initialPointer [[0%R]])
          [MouseMove {| clientX := 2; clientY := 2 |}; MouseUp; Fire 1; MouseLeave])
  = [[0%R]].
Proof.
  apply (no_heat_without_mousedown _ (initialPointer [[0%R]])
           [MouseMove {| clientX := 2; clientY := 2 |}; MouseUp; Fire 1; MouseLeave]);
    reflexivity.
Defined.

Lemma handle_fire_held (env : Settings) (st : Pointer) (event : MouseEvent) (id : nat) :
  holding st = true -> mouseEvent st = Some event -> In id (timers st) ->
  holding (handle env st (Fire id)) = true /\
  mouseEvent (handle env st (Fire id)) = Some event /\
  timers (handle env st (Fire id)) = timers st /\
  grid (handle env st (Fire id))
  = addHeat (grid st) (rowsSetting env) (colsSetting env)
      (fst (canvasXYToGridXY (fst (getMousePosition (canvasRect env) event))
              (snd (getMousePosition (canvasRect env) event)) (scaleSetting env)))
      (snd (canvasXYToGridXY (fst (getMousePosition (canvasRect env) event))
              (snd (getMousePosition (canvasRect env) event)) (scaleSetting env)))
      (heatMultiplier env * 8)%R.
Proof.
  intros Hh Hev Hin. simpl.
  assert (Hlive : existsb (Nat.eqb id) (timers st) = true).
  { apply existsb_exists. exists id. split; [exact Hin|apply Nat.eqb_refl]. }
  rewrite Hlive. unfold intervalCallback. rewrite Hh, Hev. simpl.
  repeat split; assumption.
Qed.

(** X22: the leaked intervals multiply the injection.  While the button is
    held over a fixed pointer position, a round in which the callbacks of
    [n] live intervals run injects the heat [heatMultiplier * 8] at the
    cell under the pointer [n] times. *)
Theorem held_round_injects (env : Settings) (st : Pointer) (event : MouseEvent)
  (ids : list nat) :
  holding st = true -> mouseEvent st = Some event ->
  (forall id, In id ids -> In id (timers st)) ->
  grid (run env st (map Fire ids))
  = addHeatTimes (length ids) (grid st) (rowsSetting env) (colsSetting env)
      (fst (canvasXYToGridXY (fst (getMousePosition (canvasRect env) event))
              (snd (getMousePosition (canvasRect env) event)) (scaleSetting env)))
      (snd (canvasXYToGridXY (fst (getMousePosition (canvasRect env) event))
              (snd (getMousePosition (canvasRect env) event)) (scaleSetting env)))
      (heatMultiplier env * 8)%R.
Proof.
  unfold run. revert st.
  induction ids as [|id ids IH]; intros st Hh Hev Hlive; [reflexivity|].
  cbn [map fold_left length addHeatTimes].
  destruct (handle_fire_held env st event id Hh Hev (Hlive id (or_introl eq_refl)))
    as (Hh' & Hev' & Ht' & Hg').
  rewrite IH; try assumption.
  - rewrite Hg'. reflexivity.
  - intros k Hk. rewrite Ht'. apply Hlive. right. exact Hk.
Qed.

Lemma held_round_injects_witness :
  grid (run {| canvasRect := {| rect_left := 0; rect_top := 0 |};
               scaleSetting := 4; heatMultiplier := 1%R;
               rowsSetting := 1; colsSetting := 1 |}
          {| holding := true; mouseEvent := Some {| clientX := 2; clientY := 2 |};
             intervalID := Some 3; timers := [3; 1]; nextTimer := 4;
             grid := [[0%R]] |}
          (map Fire [1; 3]))
  = addHeatTimes 2 [[0%R]] 1 1
      (fst (canvasXYToGridXY (2 - 0) (2 - 0) 4))
      (snd (canvasXYToGridXY (2 - 0) (2 - 0) 4)) (1 * 8)%R.
Proof.
  apply (held_round_injects
           {| canvasRect := {| rect_left := 0; rect_top := 0 |};
              scaleSetting := 4; heatMultiplier := 1%R;
              rowsSetting := 1; colsSetting := 1 |}
           {| holding := true; mouseEvent := Some {| clientX := 2; clientY := 2 |};
              intervalID := Some 3; timers := [3; 1]; nextTimer := 4;
              grid := [[0%R]] |}
           {| clientX := 2; clientY := 2 |} [1; 3]);
    try reflexivity.
  intros id Hin. simpl in *. tauto.
Defined.

(** ** Start, reset and the first frame *)

Lemma totalCells_full (canvasSize scale : nat) :
  totalCells canvasSize scale = canvasSize / scale <-> canvasSize mod scale = 0.
Proof.
  unfold totalCells.
  destruct (Nat.eqb_spec (canvasSize mod scale) 0) as [H0|Hn0]; split; intros; lia.
Qed.

Lemma drawHeatGrid_rejects (canvas : Canvas) (data : ImageData)
  (heatGrid : Grid) (rows cols scale : nat) :
  rectangular heatGrid rows cols -> 1 <= rows ->
  cols <= width canvas -> rows <= height canvas ->
  totalCells (width canvas) scale <> cols \/ totalCells (height canvas) scale <> rows ->
  drawHeatGrid canvas data heatGrid scale
  = inl (Thrown "Mismatch in canvas and grid sizes").
Proof.
  intros [Hlen Hcols] Hrows HW HH Hne.
  destruct heatGrid as [|row0 rest]; [simpl in Hlen; lia|].
  assert (Hc0 : length row0 = cols) by (apply (Hcols 0); lia).
  unfold drawHeatGrid. rewrite Hlen, Hc0.
  replace (width canvas <? cols) with false by (symmetry; apply Nat.ltb_ge; lia).
  replace (height canvas <? rows) with false by (symmetry; apply Nat.ltb_ge; lia).
  cbn [orb].
  destruct (Nat.eqb_spec (totalCells (width canvas) scale) cols),
    (Nat.eqb_spec (totalCells (height canvas) scale) rows); simpl; try reflexivity.
  destruct Hne; contradiction.
Qed.

(** The grid the program starts from, when the canvas gives valid
    dimensions. *)
Lemma newHeatGrid_valid (canvas : Canvas) (scale : nat) (beta : Z) :
  1 <= height canvas / scale <= 1080 -> 1 <= width canvas / scale <= 1920 ->
  exists g, newHeatGrid canvas scale beta = inr g /\
    rectangular g (height canvas / scale) (width canvas / scale) /\
    forall i j, i < height canvas / scale -> j < width canvas / scale ->
      get g i j
      = (255 * exp (- betaScaled beta scale
                     * IZR (sqDist (Z.of_nat (width canvas / scale) / 2)
                              (Z.of_nat (height canvas / scale) / 2) i j)))%R.
Proof.
  intros Hr Hc. unfold newHeatGrid.
  destruct (initializeHeatGrid_exp (Z.of_nat (height canvas / scale))
              (Z.of_nat (width canvas / scale)) (betaScaled beta scale)
              default_alpha) as (g & Heq & Hrect & Hcells); try lia.
  rewrite !Nat2Z.id in Hrect, Hcells.
  exists g. split; [exact Heq|]. split; [exact Hrect|exact Hcells].
Qed.

Lemma newHeatGrid_invalid (canvas : Canvas) (scale : nat) (beta : Z) :
  ~ (1 <= height canvas / scale <= 1080 /\ 1 <= width canvas / scale <= 1920) ->
  newHeatGrid canvas scale beta = inl (Thrown "Invalid row or column count!").
Proof.
  intros Hbad. unfold newHeatGrid, initializeHeatGrid.
  rewrite dimensions_rejected by lia. reflexivity.
Qed.

(** X23: the program gets through its first frame, after start or reset,
    exactly when the scale divides both sides of the canvas and the grid
    dimensions [height/scale] and [width/scale] are within [1..1080] and
    [1..1920].  With dimensions out of range it stops with "Invalid row or
    column count!"; with valid dimensions and a side the scale does not
    divide it stops with "Mismatch in canvas and grid sizes", so the loops
    for the remainder blocks are never reached from the program. *)
Theorem firstFrame_outcome (canvas : Canvas) (scale : nat) (beta : Z) (gamma : R) :
  1 <= scale ->
  let valid := 1 <= height canvas / scale <= 1080 /\
               1 <= width canvas / scale <= 1920 in
  let whole := width canvas mod scale = 0 /\ height canvas mod scale = 0 in
  ((exists r, firstFrame canvas scale beta gamma = inr r) <-> valid /\ whole) /\
  (~ valid ->
   firstFrame canvas scale beta gamma = inl (Thrown "Invalid row or column count!")) /\
  (valid -> ~ whole ->
   firstFrame canvas scale beta gamma
   = inl (Thrown "Mismatch in canvas and grid sizes")).
Proof.
  intros Hs valid whole.
  assert (Hinvalid : ~ valid ->
            firstFrame canvas scale beta gamma
            = inl (Thrown "Invalid row or column count!")).
  { intros Hbad. unfold firstFrame.
    rewrite (newHeatGrid_invalid canvas scale beta Hbad). reflexivity. }
  assert (Hpart : valid -> ~ whole ->
            firstFrame canvas scale beta gamma
            = inl (Thrown "Mismatch in canvas and grid sizes")).
  { intros [Hr Hc] Hnot. unfold firstFrame, animate.
    destruct (newHeatGrid_valid canvas scale beta Hr Hc) as (g & Heq & Hrect & _).
    rewrite Heq.
    rewrite (drawHeatGrid_rejects canvas _ g (height canvas / scale)
               (width canvas / scale) scale Hrect); try reflexivity; try lia.
    - pose proof (full_cells_fit (width canvas) scale). nia.
    - pose proof (full_cells_fit (height canvas) scale). nia.
    - unfold whole in Hnot. rewrite !totalCells_full. lia. }
  assert (Hgood : valid -> whole ->
            exists r, firstFrame canvas scale beta gamma = inr r).
  { intros [Hr Hc] [HwX HwY]. unfold firstFrame, animate.
    destruct (newHeatGrid_valid canvas scale beta Hr Hc) as (g & Heq & Hrect & _).
    rewrite Heq.
    destruct (drawHeatGrid_accepts canvas
                (createImageData (width canvas) (height canvas)) g
                (height canvas / scale) (width canvas / scale) scale Hrect)
      as [data' Hdraw]; try lia; try (apply totalCells_full; assumption).
    - pose proof (full_cells_fit (width canvas) scale). nia.
    - pose proof (full_cells_fit (height canvas) scale). nia.
    - rewrite Hdraw.
      destruct (heatDissipationTimeStep_inPlace g _ _ gamma Hrect) as (g' & Hstep & _);
        [lia|].
      rewrite Hstep. eexists. reflexivity. }
  split; [|split; assumption].
  split.
  - intros [r Hr].
    assert (Hv : valid \/ ~ valid) by (unfold valid; lia).
    destruct Hv as [Hv|Hv]; [|rewrite (Hinvalid Hv) in Hr; discriminate].
    assert (Hw : whole \/ ~ whole) by (unfold whole; lia).
    destruct Hw as [Hw|Hw]; [split; assumption|].
    rewrite (Hpart Hv Hw) in Hr. discriminate.
  - intros [Hv Hw]. apply Hgood; assumption.
Qed.

Lemma firstFrame_outcome_witness :
  (exists r, firstFrame {| width := 8; height := 4 |} 4 10 (1 / 4)%R = inr r) /\
  firstFrame {| width := 10; height := 4 |} 4 10 (1 / 4)%R
  = inl (Thrown "Mismatch in canvas and grid sizes") /\
  firstFrame {| width := 3; height := 4 |} 4 10 (1 / 4)%R
  = inl (Thrown "Invalid row or column count!").
Proof.
  split; [|split].
  - apply (firstFrame_outcome {| width := 8; height := 4 |} 4 10 (1 / 4)%R); [lia|].
    simpl. lia.
  - apply (firstFrame_outcome {| width := 10; height := 4 |} 4 10 (1 / 4)%R);
      simpl; lia.
  - apply (firstFrame_outcome {| width := 3; height := 4 |} 4 10 (1 / 4)%R);
      simpl; lia.
Defined.

(** X24: the first frame.  When the scale divides both sides of the canvas
    and the grid dimensions are valid, the program builds its initial grid
    of [height/scale] by [width/scale] cells, and the first frame shows
    that grid, the grid before the step: every pixel [(x,y)] of the canvas
    reads back with the colour of cell [(floor(y/scale), floor(x/scale))]
    of the initial grid (the red byte is the byte of the cell's
    temperature, the blue byte [15], the alpha byte [255]); and the frame
    hands on a grid of the same shape without negative cells. *)
Theorem firstFrame_picture (canvas : Canvas) (scale : nat) (beta : Z) (gamma : R) :
  1 <= scale ->
  1 <= height canvas / scale <= 1080 -> 1 <= width canvas / scale <= 1920 ->
  width canvas mod scale = 0 -> height canvas mod scale = 0 ->
  let rows := height canvas / scale in
  let cols := width canvas / scale in
  exists g data g',
    newHeatGrid canvas scale beta = inr g /\
    rectangular g rows cols /\
    firstFrame canvas scale beta gamma = inr (data, g') /\
    (forall x y, x < width canvas -> y < height canvas ->
       displays data (width canvas) x y (get g (y / scale) (x / scale))) /\
    rectangular g' rows cols /\
    (forall i j, i < rows -> j < cols -> (0 <= get g' i j)%R).
Proof.
  intros Hs Hr Hc HwX HwY rows cols.
  pose proof (Nat.div_mod_eq (width canvas) scale) as HdX.
  pose proof (Nat.div_mod_eq (height canvas) scale) as HdY.
  destruct (newHeatGrid_valid canvas scale beta Hr Hc) as (g & Heq & Hrect & _).
  destruct (drawHeatGrid_accepts canvas
              (createImageData (width canvas) (height canvas)) g
              rows cols scale Hrect)
    as [data Hdraw]; unfold rows, cols; try lia;
    try (apply totalCells_full; assumption); try nia.
  destruct (heatDissipationTimeStep_inPlace g rows cols gamma Hrect)
    as (g' & Hstep & Hrect' & Hnew); [unfold rows; lia|].
  exists g, data, g'. split; [exact Heq|]. split; [exact Hrect|].
  split; [|split; [|split]].
  - unfold firstFrame, animate. rewrite Heq, Hdraw, Hstep. reflexivity.
  - intros x y Hx Hy.
    destruct (drawHeatGrid_pixels canvas
                (createImageData (width canvas) (height canvas)) data g scale Hs)
      as [Hpaint _]; [lia|exact Hdraw|].
    apply painted_displays.
    apply Hpaint; [apply repeat_length|nia|nia].
  - exact Hrect'.
  - apply (inPlace_nonneg g g' rows cols gamma Hnew).
Qed.

Lemma firstFrame_picture_witness :
  exists g data g',
    newHeatGrid {| width := 8; height := 4 |} 4 10 = inr g /\
    rectangular g 1 2 /\
    firstFrame {| width := 8; height := 4 |} 4 10 (1 / 4)%R = inr (data, g') /\
    (forall x y, x < 8 -> y < 4 -> displays data 8 x y (get g (y / 4) (x / 4))) /\
    rectangular g' 1 2 /\
    (forall i j, i < 1 -> j < 2 -> (0 <= get g' i j)%R).
Proof.
  apply (firstFrame_picture {| width := 8; height := 4 |} 4 10 (1 / 4)%R);
    simpl; lia.
Defined.

(** X25: on a canvas whose sides are multiples of 40 pixels, up to 1920 by
    1080, the program gets through its first frame at every scale the
    selector offers (10, 8, 5, 4, 2 and 1 pixels per cell). *)
Theorem every_selector_scale_starts (a b : nat) (n : Z) (scale : nat)
  (beta : Z) (gamma : R) :
  1 <= a <= 48 -> 1 <= b <= 27 ->
  scaleInputToScale n = Some scale ->
  exists r, firstFrame {| width := 40 * a; height := 40 * b |} scale beta gamma = inr r.
Proof.
  intros Ha Hb Hsel.
  assert (Hscale : exists k, 1 <= k /\ 40 = k * scale /\ 1 <= scale).
  { unfold scaleInputToScale in Hsel.
    repeat match type of Hsel with
           | context [match ?p with _ => _ end] =>
               destruct p; try discriminate Hsel
           end;
      injection Hsel as <-;
      match goal with
      | |- exists k, _ /\ 40 = k * ?s /\ _ => exists (40 / s)
      end; cbn; lia. }
  destruct Hscale as (k & Hk & H40 & Hs).
  assert (HW : 40 * a = (k * a) * scale) by nia.
  assert (HH : 40 * b = (k * b) * scale) by nia.
  set (canvas := {| width := 40 * a; height := 40 * b |}).
  assert (HdW : width canvas / scale = k * a)
    by (cbn [canvas width]; rewrite HW; apply Nat.div_mul; lia).
  assert (HdH : height canvas / scale = k * b)
    by (cbn [canvas height]; rewrite HH; apply Nat.div_mul; lia).
  assert (HmW : width canvas mod scale = 0)
    by (cbn [canvas width]; rewrite HW; apply Nat.Div0.mod_mul).
  assert (HmH : height canvas mod scale = 0)
    by (cbn [canvas height]; rewrite HH; apply Nat.Div0.mod_mul).
  assert (Hrows : 1 <= height canvas / scale <= 1080) by (rewrite HdH; nia).
  assert (Hcols : 1 <= width canvas / scale <= 1920) by (rewrite HdW; nia).
  unfold firstFrame, animate.
  destruct (newHeatGrid_valid canvas scale beta Hrows Hcols) as (g & Heq & Hrect & _).
  rewrite Heq.
  destruct (drawHeatGrid_accepts canvas
              (createImageData (width canvas) (height canvas)) g
              (height canvas / scale) (width canvas / scale) scale Hrect)
    as [data' Hdraw]; try lia; try (apply totalCells_full; assumption).
  - rewrite HdW. cbn [canvas width]. nia.
  - rewrite HdH. cbn [canvas height]. nia.
  - rewrite Hdraw.
    destruct (heatDissipationTimeStep_inPlace g _ _ gamma Hrect) as (g' & Hstep & _);
      [lia|].
    rewrite Hstep. eexists. reflexivity.
Qed.

Lemma every_selector_scale_starts_witness :
  exists r, firstFrame {| width := 40 * 2; height := 40 * 1 |} 8 5 (1 / 4)%R = inr r.
Proof.
  apply (every_selector_scale_starts 2 1 2 8 5 (1 / 4)%R); try lia. reflexivity.
Defined.

(** ** The animation *)

(** Whether a rendering is accepted depends on the shape of the grid
    only. *)
Lemma drawHeatGrid_accepted_shape (canvas : Canvas) (data data' : ImageData)
  (heatGrid : Grid) (rows cols scale : nat) :
  rectangular heatGrid rows cols ->
  drawHeatGrid canvas data heatGrid scale = inr data' ->
  1 <= rows /\ cols <= width canvas /\ rows <= height canvas /\
  totalCells (width canvas) scale = cols /\ totalCells (height canvas) scale = rows.
Proof.
  intros [Hlen Hcols] Hdraw. unfold drawHeatGrid in Hdraw.
  destruct heatGrid as [|row0 rest]; [discriminate|].
  assert (Hrows : 1 <= rows) by (simpl in Hlen; lia).
  assert (Hc0 : length row0 = cols) by (apply (Hcols 0); lia).
  rewrite Hlen, Hc0 in Hdraw.
  destruct (Nat.ltb_spec (width canvas) cols); [discriminate|].
  destruct (Nat.ltb_spec (height canvas) rows); [discriminate|].
  destruct (Nat.eqb_spec (totalCells (width canvas) scale) cols); [|discriminate].
  destruct (Nat.eqb_spec (totalCells (height canvas) scale) rows); [|discriminate].
  repeat split; assumption.
Qed.

(** X26: once a frame has been drawn the animation does not stop by
    itself.  If the rendering of a rectangular grid is accepted, then any
    number of frames, each a rendering followed by a diffusion step on the
    same canvas and buffer, succeeds, for every [gamma]; the grid keeps its
    shape and the buffer its length. *)
Theorem frames_never_fail (n : nat) (canvas : Canvas) (data0 data : ImageData)
  (g : Grid) (rows cols scale : nat) (gamma : R) :
  rectangular g rows cols ->
  drawHeatGrid canvas data g scale = inr data0 ->
  exists data' g',
    frames n canvas data g scale gamma = inr (data', g') /\
    rectangular g' rows cols /\ length data' = length data.
Proof.
  intros Hrect Hdraw.
  destruct (drawHeatGrid_accepted_shape canvas data data0 g rows cols scale Hrect Hdraw)
    as (Hrows & HW & HH & HtX & HtY).
  clear Hdraw data0. revert data g Hrect.
  induction n as [|n IH]; intros data g Hrect.
  - exists data, g. split; [reflexivity|]. split; [exact Hrect|reflexivity].
  - destruct (drawHeatGrid_accepts canvas data g rows cols scale
                Hrect Hrows HW HH HtX HtY) as [data1 Hdraw1].
    destruct (heatDissipationTimeStep_inPlace g rows cols gamma Hrect)
      as (g1 & Hstep & Hrect1 & _); [lia|].
    destruct (IH data1 g1 Hrect1) as (data' & g' & Hframes & Hrect' & Hlen').
    exists data', g'. split; [|split; [exact Hrect'|]].
    + cbn [frames]. unfold animate. rewrite Hdraw1, Hstep. exact Hframes.
    + rewrite Hlen'.
      rewrite (drawHeatGrid_accepted canvas data data1 g scale Hdraw1).
      transitivity
        (length (drawFullCells (width canvas) (width canvas / scale)
                   (height canvas / scale) scale g data));
        [|apply drawFullCells_length].
      apply (drawRemainder_preserves
               (fun d => length d
                         = length (drawFullCells (width canvas) (width canvas / scale)
                                     (height canvas / scale) scale g data)));
        [|reflexivity].
      intros row col x y d _ _ Hd. rewrite length_writePixel. exact Hd.
Qed.

Lemma frames_never_fail_witness :
  exists data' g',
    frames 3 {| width := 4; height := 2 |} (createImageData 4 2)
      [[1%R; 2%R]] 2 5%R = inr (data', g') /\
    rectangular g' 1 2 /\ length data' = length (createImageData 4 2).
Proof.
  apply (frames_never_fail 3 {| width := 4; height := 2 |}
           (drawRemainder 4 2 2 1 2 1 2 [[1%R; 2%R]]
              (drawFullCells 4 2 1 2 [[1%R; 2%R]] (createImageData 4 2)))
           (createImageData 4 2) [[1%R; 2%R]] 1 2 2 5%R).
  - apply rectangular_1x2.
  - reflexivity.
Defined.
